(** * kOmegaSSTPANS: the PANS closure on top of k-omega-SST

    A shallow embedding of [kOmegaSSTPANS.H].  A [volScalarField] keeps its
    name, one scalar per cell and the types of its boundary patches; the
    face values on the patches and the physical dimensions are not part of
    the model.

    The class is read at two levels.

    - The closure steps [correct] and [correctNut] are only declared in the
      header; they are modelled from the specification, which speaks of
      real numbers.  There a scalar is a real number, and an operation
      without a finite result (a division by zero, the square root of a
      negative number, two fields of different sizes combined cell by
      cell) yields [None].  [Scalar], [Field], [PANS] and [Closure] hold
      this level; [PANS] also has the accessors that hand out a stored
      field without computing.
    - The member functions that the header defines inline and that
      compute ([DkUEff], [DomegaUEff], [epsilon]) are modelled in the
      arithmetic of the program, IEEE 754 doubles: a division by zero, an
      overflow or a NaN yields the double that the hardware yields.
      [Binary64] holds the facts on doubles and [Header] the class.

    [Accessors], [HeaderProperties], [HeaderEdges] and [ClosureProperties]
    state what holds of them. *)

From Stdlib Require Import Floats ZArith Bool.
From Stdlib Require Import Reals Lra String List Arith Lia.
Import ListNotations.
Local Open Scope R_scope.

(** ** Scalars *)

Module Scalar.

(** [Foam::scalar]. *)
Abbreviation scalar := R (only parsing).

(** [a / b] on scalars: no finite result when [b] is zero. *)
Definition sdiv (a b : scalar) : option scalar :=
  if Req_dec_T b 0 then None else Some (a / b).

(** [sqrt(a)]: no finite result on a negative argument. *)
Definition ssqrt (a : scalar) : option scalar :=
  if Rle_dec 0 a then Some (sqrt a) else None.

Lemma sdiv_Some (a b q : scalar) :
  sdiv a b = Some q <-> b <> 0 /\ q = a / b.
Proof.
  unfold sdiv. destruct (Req_dec_T b 0) as [E | N]; split.
  - discriminate.
  - intros [H _]. contradiction.
  - intros H. injection H as <-. split; [exact N | reflexivity].
  - intros [_ ->]. reflexivity.
Qed.

Lemma sdiv_None (a b : scalar) : sdiv a b = None <-> b = 0.
Proof.
  unfold sdiv. destruct (Req_dec_T b 0) as [E | N]; split; try easy.
Qed.

Lemma sdiv_nonzero (a b : scalar) : b <> 0 -> sdiv a b = Some (a / b).
Proof. intros N. apply sdiv_Some. split; [exact N | reflexivity]. Qed.

Lemma ssqrt_Some (a r : scalar) :
  ssqrt a = Some r <-> 0 <= a /\ r = sqrt a.
Proof.
  unfold ssqrt. destruct (Rle_dec 0 a) as [L | N]; split.
  - intros H. injection H as <-. split; [exact L | reflexivity].
  - intros [_ ->]. reflexivity.
  - discriminate.
  - intros [H _]. contradiction.
Qed.

Lemma ssqrt_nonneg (a : scalar) : 0 <= a -> ssqrt a = Some (sqrt a).
Proof. intros L. apply ssqrt_Some. split; [exact L | reflexivity]. Qed.

End Scalar.

(** ** Fields *)

Module Field.
Import Scalar.

Definition word := string.

(** The values of a field in the cells of the mesh, in cell order. *)
Definition scalarField := list scalar.

Record volScalarField := mkVolScalarField {
  name : word;
  primitiveField : scalarField;
  patchTypes : list word
}.

(** The value of a field in cell [i], if the mesh has such a cell. *)
Definition cell (f : volScalarField) (i : nat) : option scalar :=
  nth_error (primitiveField f) i.

Definition size (f : volScalarField) : nat := length (primitiveField f).

(** Cell-by-cell combination of two fields of the same size. *)
Fixpoint zipWithM {A B C : Type} (op : A -> B -> option C)
    (xs : list A) (ys : list B) : option (list C) :=
  match xs, ys with
  | [], [] => Some []
  | x :: xs', y :: ys' =>
      match op x y with
      | Some z =>
          match zipWithM op xs' ys' with
          | Some zs => Some (z :: zs)
          | None => None
          end
      | None => None
      end
  | _, _ => None
  end.

Fixpoint mapM {A B : Type} (op : A -> option B) (xs : list A)
    : option (list B) :=
  match xs with
  | [] => Some []
  | x :: xs' =>
      match op x with
      | Some z =>
          match mapM op xs' with
          | Some zs => Some (z :: zs)
          | None => None
          end
      | None => None
      end
  end.

Definition fadd : scalarField -> scalarField -> option scalarField :=
  zipWithM (fun a b => Some (a + b)).
Definition fmul : scalarField -> scalarField -> option scalarField :=
  zipWithM (fun a b => Some (a * b)).
Definition fdiv : scalarField -> scalarField -> option scalarField :=
  zipWithM sdiv.
Definition fmax : scalarField -> scalarField -> option scalarField :=
  zipWithM (fun a b => Some (Rmax a b)).
Definition fsqrt : scalarField -> option scalarField := mapM ssqrt.

(** A dimensioned scalar times a field. *)
Definition smul (c : scalar) (xs : scalarField) : scalarField :=
  map (fun x => c * x) xs.

(** The option monad threads the missing results through an expression. *)
Definition obind {A B : Type} (m : option A) (k : A -> option B) : option B :=
  match m with
  | Some a => k a
  | None => None
  end.

Notation "x <- m ;; k" := (obind m (fun x => k))
  (at level 61, m at next level, right associativity).

Lemma obind_Some {A B : Type} (m : option A) (k : A -> option B) (b : B) :
  obind m k = Some b <-> exists a, m = Some a /\ k a = Some b.
Proof.
  destruct m as [a | ]; simpl; split.
  - intros H. exists a. split; [reflexivity | exact H].
  - intros (a' & E & H). injection E as <-. exact H.
  - discriminate.
  - intros (a' & E & _). discriminate.
Qed.

(** A step of an expression that has a result had a result in its first
    operand: [obind_inv H x Hx] names it. *)
Ltac obind_inv H x Hx :=
  apply obind_Some in H; destruct H as (x & Hx & H).

(** *** What a cell-by-cell combination holds in each cell *)

Lemma zipWithM_length {A B C : Type} (op : A -> B -> option C) xs :
  forall ys zs,
  zipWithM op xs ys = Some zs ->
  length ys = length xs /\ length zs = length xs.
Proof.
  induction xs as [ | x xs IH]; intros [ | y ys] zs H; simpl in H;
    try discriminate.
  - injection H as <-. split; reflexivity.
  - destruct (op x y) as [z | ]; try discriminate.
    destruct (zipWithM op xs ys) as [zs' | ] eqn:E; try discriminate.
    injection H as <-. destruct (IH ys zs' E) as [L1 L2]. simpl.
    split; congruence.
Qed.

Lemma zipWithM_nth {A B C : Type} (op : A -> B -> option C) xs :
  forall ys zs i x y,
  zipWithM op xs ys = Some zs ->
  nth_error xs i = Some x -> nth_error ys i = Some y ->
  exists z, op x y = Some z /\ nth_error zs i = Some z.
Proof.
  induction xs as [ | x0 xs IH]; intros [ | y0 ys] zs i x y H Hx Hy;
    simpl in H; try discriminate.
  - destruct i; discriminate.
  - destruct (op x0 y0) as [z0 | ] eqn:E0; try discriminate.
    destruct (zipWithM op xs ys) as [zs' | ] eqn:E; try discriminate.
    injection H as <-. destruct i as [ | i]; simpl in *.
    + injection Hx as <-. injection Hy as <-. exists z0. split; congruence.
    + exact (IH ys zs' i x y E Hx Hy).
Qed.

Lemma zipWithM_total {A B C : Type} (op : A -> B -> option C) xs :
  forall ys,
  length ys = length xs ->
  (forall i x y, nth_error xs i = Some x -> nth_error ys i = Some y ->
                 op x y <> None) ->
  exists zs, zipWithM op xs ys = Some zs.
Proof.
  induction xs as [ | x xs IH]; intros [ | y ys] L D; simpl in L;
    try discriminate.
  - exists []. reflexivity.
  - simpl. destruct (op x y) as [z | ] eqn:E.
    + destruct (IH ys) as [zs Hzs].
      * congruence.
      * intros i a b Ha Hb. exact (D (S i) a b Ha Hb).
      * rewrite Hzs. exists (z :: zs). reflexivity.
    + exfalso. exact (D 0%nat x y eq_refl eq_refl E).
Qed.

Lemma zipWithM_undefined {A B C : Type} (op : A -> B -> option C) xs :
  forall ys i x y,
  nth_error xs i = Some x -> nth_error ys i = Some y -> op x y = None ->
  zipWithM op xs ys = None.
Proof.
  intros ys i x y Hx Hy E.
  destruct (zipWithM op xs ys) as [zs | ] eqn:Z; [ | reflexivity].
  destruct (zipWithM_nth op xs ys zs i x y Z Hx Hy) as (z & Hz & _).
  congruence.
Qed.

Lemma mapM_length {A B : Type} (op : A -> option B) xs : forall zs,
  mapM op xs = Some zs -> length zs = length xs.
Proof.
  induction xs as [ | x xs IH]; intros zs H; simpl in H.
  - injection H as <-. reflexivity.
  - destruct (op x) as [z | ]; try discriminate.
    destruct (mapM op xs) as [zs' | ] eqn:E; try discriminate.
    injection H as <-. simpl. f_equal. exact (IH zs' eq_refl).
Qed.

Lemma mapM_nth {A B : Type} (op : A -> option B) xs : forall zs i x,
  mapM op xs = Some zs -> nth_error xs i = Some x ->
  exists z, op x = Some z /\ nth_error zs i = Some z.
Proof.
  induction xs as [ | x0 xs IH]; intros zs i x H Hx; simpl in H.
  - destruct i; discriminate.
  - destruct (op x0) as [z0 | ] eqn:E0; try discriminate.
    destruct (mapM op xs) as [zs' | ] eqn:E; try discriminate.
    injection H as <-. destruct i as [ | i]; simpl in *.
    + injection Hx as <-. exists z0. split; congruence.
    + exact (IH zs' i x eq_refl Hx).
Qed.

Lemma mapM_total {A B : Type} (op : A -> option B) xs :
  (forall i x, nth_error xs i = Some x -> op x <> None) ->
  exists zs, mapM op xs = Some zs.
Proof.
  induction xs as [ | x xs IH]; intros D.
  - exists []. reflexivity.
  - simpl. destruct (op x) as [z | ] eqn:E.
    + destruct IH as [zs Hzs].
      * intros i a Ha. exact (D (S i) a Ha).
      * rewrite Hzs. exists (z :: zs). reflexivity.
    + exfalso. exact (D 0%nat x eq_refl E).
Qed.

Lemma smul_nth c xs i x :
  nth_error xs i = Some x -> nth_error (smul c xs) i = Some (c * x).
Proof.
  intros H. unfold smul. apply map_nth_error. exact H.
Qed.

Lemma nth_error_map_inv {A B : Type} (f : A -> B) (l : list A) (i : nat)
    (b : B) :
  nth_error (map f l) i = Some b ->
  exists a, nth_error l i = Some a /\ b = f a.
Proof.
  rewrite nth_error_map. destruct (nth_error l i) as [a | ]; simpl.
  - intros H. injection H as <-. exists a. split; reflexivity.
  - discriminate.
Qed.

Lemma nth_error_in_range {A : Type} (l : list A) (i : nat) :
  (i < length l)%nat -> exists x, nth_error l i = Some x.
Proof.
  intros H. destruct (nth_error l i) as [x | ] eqn:E.
  - exists x. reflexivity.
  - apply nth_error_None in E. lia.
Qed.

End Field.

(** ** The model class *)

Module PANS.
Import Scalar Field.
Local Open Scope string_scope.

(** The data of one [kOmegaSSTPANS] object.  The first group belongs to
    the base class [kOmegaSST]: coefficients that the description in the
    header lists, and the fields that the header reads through [this->];
    [nu] stands for the field that [this->nu()] returns.  The second group
    is the protected data that the header declares; [delta_] stands for the
    field that the delta model behind the [autoPtr] holds. *)
Record kOmegaSSTPANS := mkModel {
  alphaK1_ : scalar;
  alphaK2_ : scalar;
  alphaOmega1_ : scalar;
  alphaOmega2_ : scalar;
  betaStar_ : scalar;
  a1_ : scalar;
  b1_ : scalar;
  k_ : volScalarField;
  omega_ : volScalarField;
  nut_ : volScalarField;
  nu : volScalarField;
  fEpsilon_ : scalar;
  uLim_ : scalar;
  loLim_ : scalar;
  fK_ : volScalarField;
  fOmega_ : volScalarField;
  delta_ : volScalarField;
  kU_ : volScalarField;
  omegaU_ : volScalarField
}.

(** Assignments to the fields that the model owns. *)
Definition set_kU (m : kOmegaSSTPANS) (f : volScalarField) : kOmegaSSTPANS :=
  mkModel (alphaK1_ m) (alphaK2_ m) (alphaOmega1_ m) (alphaOmega2_ m)
    (betaStar_ m) (a1_ m) (b1_ m) (k_ m) (omega_ m) (nut_ m) (nu m)
    (fEpsilon_ m) (uLim_ m) (loLim_ m) (fK_ m) (fOmega_ m) (delta_ m)
    f (omegaU_ m).

Definition set_omegaU (m : kOmegaSSTPANS) (f : volScalarField)
    : kOmegaSSTPANS :=
  mkModel (alphaK1_ m) (alphaK2_ m) (alphaOmega1_ m) (alphaOmega2_ m)
    (betaStar_ m) (a1_ m) (b1_ m) (k_ m) (omega_ m) (nut_ m) (nu m)
    (fEpsilon_ m) (uLim_ m) (loLim_ m) (fK_ m) (fOmega_ m) (delta_ m)
    (kU_ m) f.

Definition set_fK (m : kOmegaSSTPANS) (f : volScalarField) : kOmegaSSTPANS :=
  mkModel (alphaK1_ m) (alphaK2_ m) (alphaOmega1_ m) (alphaOmega2_ m)
    (betaStar_ m) (a1_ m) (b1_ m) (k_ m) (omega_ m) (nut_ m) (nu m)
    (fEpsilon_ m) (uLim_ m) (loLim_ m) f (fOmega_ m) (delta_ m)
    (kU_ m) (omegaU_ m).

Definition set_fOmega (m : kOmegaSSTPANS) (f : volScalarField)
    : kOmegaSSTPANS :=
  mkModel (alphaK1_ m) (alphaK2_ m) (alphaOmega1_ m) (alphaOmega2_ m)
    (betaStar_ m) (a1_ m) (b1_ m) (k_ m) (omega_ m) (nut_ m) (nu m)
    (fEpsilon_ m) (uLim_ m) (loLim_ m) (fK_ m) f (delta_ m)
    (kU_ m) (omegaU_ m).

Definition set_nut (m : kOmegaSSTPANS) (f : volScalarField) : kOmegaSSTPANS :=
  mkModel (alphaK1_ m) (alphaK2_ m) (alphaOmega1_ m) (alphaOmega2_ m)
    (betaStar_ m) (a1_ m) (b1_ m) (k_ m) (omega_ m) f (nu m)
    (fEpsilon_ m) (uLim_ m) (loLim_ m) (fK_ m) (fOmega_ m) (delta_ m)
    (kU_ m) (omegaU_ m).

(** *** The inline member functions that hand out a stored field *)

(** [delta()]: access function to the filter width. *)
Definition delta (m : kOmegaSSTPANS) : volScalarField := delta_ m.

(** [k()] returns [this->k_]. *)
Definition k (m : kOmegaSSTPANS) : volScalarField := k_ m.

(** [omega()] returns [this->omega_]. *)
Definition omega (m : kOmegaSSTPANS) : volScalarField := omega_ m.

(** [kU()] returns [kU_]. *)
Definition kU (m : kOmegaSSTPANS) : volScalarField := kU_ m.

(** [omegaU()] returns [omegaU_]. *)
Definition omegaU (m : kOmegaSSTPANS) : volScalarField := omegaU_ m.

(** Every field of the object lives on the same mesh. *)
Definition sameMesh (m : kOmegaSSTPANS) (n : nat) : Prop :=
  size (k_ m) = n /\ size (omega_ m) = n /\ size (nut_ m) = n /\
  size (nu m) = n /\ size (fK_ m) = n /\
  size (fOmega_ m) = n /\ size (delta_ m) = n /\ size (kU_ m) = n /\
  size (omegaU_ m) = n.

(** *** A model object for the examples

    One cell, the default coefficients of the header, and a total k that
    was stored before [fK_] dropped to one half. *)

Definition oneCell (n : word) (v : scalar) : volScalarField :=
  mkVolScalarField n [v] ["zeroGradient"].

Definition exampleModel : kOmegaSSTPANS :=
  mkModel (85 / 100) 1 (1 / 2) (856 / 1000) (9 / 100) (31 / 100) 1
    (oneCell "k" 1) (oneCell "omega" 4) (oneCell "nut" (1 / 4))
    (oneCell "nu" (1 / 100))
    1 1 (1 / 10)
    (oneCell "fK" (1 / 2)) (oneCell "fOmega" (1 / 2))
    (oneCell "delta" 1) (oneCell "kU" 1) (oneCell "omegaU" 2).

(** *** Lemmas *)



End PANS.

(** ** The closure steps that the header only declares *)

Module Closure.
Import Scalar Field PANS.
Local Open Scope string_scope.

(** Modelled from the spec: the limiter bounds of the configuration, for
    which the header declares no member.  They are the minimum and maximum
    that the eddy viscosity is clipped to and the small positive floors of
    the two unresolved fields. *)
Record closureBounds := mkBounds {
  nutMin : scalar;
  nutMax : scalar;
  kUMin : scalar;
  omegaUMin : scalar
}.

(** Modelled from the spec: the clipping in [correct] and [correctNut],
    whose bodies are in [kOmegaSSTPANS.C], a file that is not among the
    sources.  A value is clipped to the interval from [lo] to [hi]. *)
Definition clip (lo hi x : scalar) : scalar := Rmin (Rmax x lo) hi.

(** Modelled from the spec: the bounding of a solved field in [correct],
    whose body is in [kOmegaSSTPANS.C].  A value under the floor after
    solving is clipped to the floor. *)
Definition bound (floor : scalar) (v : scalarField) : scalarField :=
  map (fun x => Rmax x floor) v.

(** Assigning new cell values to a stored field. *)
Definition withValues (f : volScalarField) (v : scalarField)
    : volScalarField :=
  mkVolScalarField (name f) v (patchTypes f).

Section ResolutionControl.

(** The unclipped estimate of fK from [fEpsilon], the filter width and the
    unresolved k and omega of a cell.  The spec leaves its exponent and
    normalisation open, so it is a parameter. *)
Variable fKestimate : scalar -> scalar -> scalar -> scalar -> scalar.

(** Modelled from the spec: the resolution-control evaluator in one cell,
    a part of [correct] in [kOmegaSSTPANS.C].  A degenerate filter width
    (zero or negative) gives [loLim]; any other gives the estimate clipped
    to the interval from [loLim] to [uLim]. *)
Definition fKcell (m : kOmegaSSTPANS) (d : scalar) (q : scalar * scalar)
    : scalar :=
  if Rle_dec d 0 then loLim_ m
  else clip (loLim_ m) (uLim_ m)
         (fKestimate (fEpsilon_ m) d (fst q) (snd q)).

(** Modelled from the spec: the first half of the resolution-control
    evaluator of [kOmegaSSTPANS.C], fK in every cell from the filter width
    and the unresolved k and omega there. *)
Definition evaluate_fK (m : kOmegaSSTPANS) : option scalarField :=
  q <- zipWithM (fun ku ou => Some (ku, ou))
         (primitiveField (kU_ m)) (primitiveField (omegaU_ m)) ;;
  zipWithM (fun d x => Some (fKcell m d x)) (primitiveField (delta_ m)) q.

(** Modelled from the spec: the second half of the resolution-control
    evaluator of [kOmegaSSTPANS.C], [fOmega = fK / fEpsilon]. *)
Definition evaluate_fOmega (m : kOmegaSSTPANS) (fK : scalarField)
    : option scalarField :=
  mapM (fun fk => sdiv fk (fEpsilon_ m)) fK.

(** Modelled from the spec: the resolution-control stage of [correct] in
    [kOmegaSSTPANS.C], which assigns the two new fields to [fK_] and
    [fOmega_]. *)
Definition resolutionControl (m : kOmegaSSTPANS) : option kOmegaSSTPANS :=
  fK <- evaluate_fK m ;;
  fO <- evaluate_fOmega m fK ;;
  Some (set_fOmega (set_fK m (withValues (fK_ m) fK))
          (withValues (fOmega_ m) fO)).

End ResolutionControl.

(** Modelled from the spec: the expression of [correctNut(S2, F2)], whose
    body is in [kOmegaSSTPANS.C]: on the fields,
    [a1 * kU / max(a1 * omegaU, b1 * F2 * sqrt(S2))]. *)
Definition nutExpression (m : kOmegaSSTPANS) (S2 F2 : scalarField)
    : option scalarField :=
  s <- fsqrt S2 ;;
  l <- fmul (smul (b1_ m) F2) s ;;
  d <- fmax (smul (a1_ m) (primitiveField (omegaU_ m))) l ;;
  fdiv (smul (a1_ m) (primitiveField (kU_ m))) d.

(** Modelled from the spec: [correctNut(S2, F2)], whose body is in
    [kOmegaSSTPANS.C].  The expression is clipped to the configured bounds
    and assigned to [nut_]. *)
Definition correctNut (b : closureBounds) (S2 F2 : volScalarField)
    (m : kOmegaSSTPANS) : option kOmegaSSTPANS :=
  q <- nutExpression m (primitiveField S2) (primitiveField F2) ;;
  Some (set_nut m
          (withValues (nut_ m) (map (clip (nutMin b) (nutMax b)) q))).

(** Modelled from the spec: the formula of [correctNut], whose body is in
    [kOmegaSSTPANS.C], in one cell. *)
Definition nutCell (a1 b1 ku ou f2 s2 : scalar) : scalar :=
  a1 * ku / Rmax (a1 * ou) (b1 * f2 * sqrt s2).

Section Correct.

Variable b : closureBounds.
Variable fKestimate : scalar -> scalar -> scalar -> scalar -> scalar.

(** The collaborators of the correction driver: the solution of the
    assembled equation for unresolved k and for unresolved omega on the
    object as it stands, the square of the strain rate, and the blending
    field [F2()]. *)
Variable solveKU : kOmegaSSTPANS -> scalarField.
Variable solveOmegaU : kOmegaSSTPANS -> scalarField.
Variable strainRateSqr : kOmegaSSTPANS -> volScalarField.
Variable F2_body : kOmegaSSTPANS -> option volScalarField.

(** Modelled from the spec: the two middle stages of [correct()], whose
    body is in [kOmegaSSTPANS.C].  The equation for unresolved k is solved
    and the solution bounded by its floor and assigned to [kU_]; then the
    same for unresolved omega and [omegaU_]. *)
Definition solved (m : kOmegaSSTPANS) : kOmegaSSTPANS :=
  let m1 := set_kU m (withValues (kU_ m) (bound (kUMin b) (solveKU m))) in
  set_omegaU m1
    (withValues (omegaU_ m1) (bound (omegaUMin b) (solveOmegaU m1))).

(** Modelled from the spec: [correct()], whose body is in
    [kOmegaSSTPANS.C].  One pass in a fixed order: the blending fields and
    the strain rate of the object as it stands; the two transport
    equations; fK and fOmega from the new unresolved fields; the eddy
    viscosity.  The header has no member that would keep [F2], so the
    field is only handed on to [correctNut]. *)
Definition correct (m : kOmegaSSTPANS) : option kOmegaSSTPANS :=
  F2 <- F2_body m ;;
  m3 <- resolutionControl fKestimate (solved m) ;;
  correctNut b (strainRateSqr m) F2 m3.

(** The solvers return a field on the mesh of the field they solve for. *)
Definition solversOnMesh : Prop :=
  (forall x, length (solveKU x) = size (kU_ x)) /\
  (forall x, length (solveOmegaU x) = size (omegaU_ x)).

End Correct.

(** *** Clipping *)

Lemma clip_upper (lo hi x : scalar) : clip lo hi x <= hi.
Proof. unfold clip. apply Rmin_r. Qed.

Lemma clip_lower (lo hi x : scalar) : lo <= hi -> lo <= clip lo hi x.
Proof.
  intros L. unfold clip. apply Rmin_glb; [apply Rmax_r | exact L].
Qed.


Lemma clip_degenerate (c x : scalar) : clip c c x = c.
Proof.
  apply Rle_antisym; [apply clip_upper | apply clip_lower, Rle_refl].
Qed.

Lemma bound_length (floor : scalar) (v : scalarField) :
  length (bound floor v) = length v.
Proof. unfold bound. apply length_map. Qed.

Lemma bound_nth (floor : scalar) (v : scalarField) (i : nat) (x : scalar) :
  nth_error (bound floor v) i = Some x -> floor <= x.
Proof.
  unfold bound. rewrite nth_error_map.
  destruct (nth_error v i) as [y | ]; simpl; [ | discriminate].
  intros H. injection H as <-. apply Rmax_r.
Qed.

(** *** The resolution-control evaluator *)

Section ResolutionControlLemmas.

Variable fKestimate : scalar -> scalar -> scalar -> scalar -> scalar.

Lemma fKcell_bounds (m : kOmegaSSTPANS) (d : scalar) (q : scalar * scalar) :
  loLim_ m <= uLim_ m ->
  loLim_ m <= fKcell fKestimate m d q <= uLim_ m.
Proof.
  intros L. unfold fKcell. destruct (Rle_dec d 0).
  - split; [apply Rle_refl | exact L].
  - split; [apply clip_lower; exact L | apply clip_upper].
Qed.

Lemma fKcell_degenerate (m : kOmegaSSTPANS) (d : scalar)
    (q : scalar * scalar) :
  d <= 0 -> fKcell fKestimate m d q = loLim_ m.
Proof.
  intros D. unfold fKcell. destruct (Rle_dec d 0); [reflexivity | ].
  contradiction.
Qed.

Lemma evaluate_fK_cells (m : kOmegaSSTPANS) (fK : scalarField) :
  evaluate_fK fKestimate m = Some fK ->
  length fK = size (delta_ m) /\
  size (kU_ m) = size (delta_ m) /\ size (omegaU_ m) = size (delta_ m) /\
  forall i fk, nth_error fK i = Some fk ->
    exists d ku ou,
      cell (delta_ m) i = Some d /\ cell (kU_ m) i = Some ku /\
      cell (omegaU_ m) i = Some ou /\
      fk = fKcell fKestimate m d (ku, ou).
Proof.
  unfold evaluate_fK. intros H.
  obind_inv H q Hq.
  destruct (zipWithM_length _ _ _ _ Hq) as [Lo Lq].
  destruct (zipWithM_length _ _ _ _ H) as [Lq' Lf].
  unfold size, cell. repeat split; try congruence.
  intros i fk Hfk.
  assert (Hi : (i < length fK)%nat).
  { apply nth_error_Some. congruence. }
  destruct (nth_error_in_range (primitiveField (delta_ m)) i) as [d Hd];
    [lia | ].
  destruct (nth_error_in_range (primitiveField (kU_ m)) i) as [ku Hku];
    [lia | ].
  destruct (nth_error_in_range (primitiveField (omegaU_ m)) i) as [ou Hou];
    [lia | ].
  destruct (zipWithM_nth _ _ _ _ _ _ _ Hq Hku Hou) as (p & Ep & Hp).
  injection Ep as <-.
  destruct (zipWithM_nth _ _ _ _ _ _ _ H Hd Hp) as (z & Ez & Hz).
  injection Ez as <-.
  exists d, ku, ou. repeat split; try assumption. congruence.
Qed.

Lemma evaluate_fK_defined (m : kOmegaSSTPANS) :
  size (kU_ m) = size (delta_ m) -> size (omegaU_ m) = size (delta_ m) ->
  exists fK, evaluate_fK fKestimate m = Some fK.
Proof.
  unfold size, evaluate_fK. intros Lk Lo.
  destruct (zipWithM_total (fun ku ou : scalar => Some (ku, ou))
              (primitiveField (kU_ m)) (primitiveField (omegaU_ m)))
    as [q Hq]; [congruence | discriminate | ].
  destruct (zipWithM_length _ _ _ _ Hq) as [_ Lq].
  destruct (zipWithM_total
              (fun (d : scalar) x => Some (fKcell fKestimate m d x))
              (primitiveField (delta_ m)) q)
    as [fK HfK]; [congruence | discriminate | ].
  exists fK. rewrite Hq. simpl. exact HfK.
Qed.

Lemma evaluate_fOmega_cells (m : kOmegaSSTPANS) (fK fO : scalarField) :
  evaluate_fOmega m fK = Some fO ->
  length fO = length fK /\
  forall i fk, nth_error fK i = Some fk ->
    exists fo, nth_error fO i = Some fo /\ sdiv fk (fEpsilon_ m) = Some fo.
Proof.
  unfold evaluate_fOmega. intros H. split.
  - exact (mapM_length _ _ _ H).
  - intros i fk Hfk. destruct (mapM_nth _ _ _ _ _ H Hfk) as (fo & E & Hfo).
    exists fo. split; assumption.
Qed.

Lemma evaluate_fOmega_defined (m : kOmegaSSTPANS) (fK : scalarField) :
  fEpsilon_ m <> 0 -> exists fO, evaluate_fOmega m fK = Some fO.
Proof.
  intros N. unfold evaluate_fOmega. apply mapM_total.
  intros i fk _ E. apply sdiv_None in E. contradiction.
Qed.

Lemma resolutionControl_inv (m m' : kOmegaSSTPANS) :
  resolutionControl fKestimate m = Some m' ->
  exists fK fO,
    evaluate_fK fKestimate m = Some fK /\
    evaluate_fOmega m fK = Some fO /\
    m' = set_fOmega (set_fK m (withValues (fK_ m) fK))
           (withValues (fOmega_ m) fO).
Proof.
  unfold resolutionControl. intros H.
  obind_inv H fK HfK.
  obind_inv H fO HfO.
  injection H as <-. exists fK, fO. repeat split; assumption.
Qed.

Lemma resolutionControl_defined (m : kOmegaSSTPANS) :
  size (kU_ m) = size (delta_ m) -> size (omegaU_ m) = size (delta_ m) ->
  fEpsilon_ m <> 0 ->
  exists m', resolutionControl fKestimate m = Some m'.
Proof.
  intros Lk Lo N. unfold resolutionControl.
  destruct (evaluate_fK_defined m Lk Lo) as [fK HfK].
  destruct (evaluate_fOmega_defined m fK N) as [fO HfO].
  rewrite HfK. simpl. rewrite HfO. simpl. eexists. reflexivity.
Qed.

(** What the evaluator leaves in the cells of [fK_] and [fOmega_]. *)
Lemma resolutionControl_cells (m m' : kOmegaSSTPANS) :
  resolutionControl fKestimate m = Some m' ->
  size (fK_ m') = size (delta_ m) /\ size (fOmega_ m') = size (delta_ m) /\
  forall i, (i < size (delta_ m))%nat ->
    exists d ku ou fo,
      cell (delta_ m) i = Some d /\ cell (kU_ m) i = Some ku /\
      cell (omegaU_ m) i = Some ou /\
      cell (fK_ m') i = Some (fKcell fKestimate m d (ku, ou)) /\
      cell (fOmega_ m') i = Some fo /\
      sdiv (fKcell fKestimate m d (ku, ou)) (fEpsilon_ m) = Some fo.
Proof.
  intros H. apply resolutionControl_inv in H.
  destruct H as (fK & fO & HfK & HfO & ->).
  destruct (evaluate_fK_cells _ _ HfK) as (LfK & Lk & Lo & CfK).
  destruct (evaluate_fOmega_cells _ _ _ HfO) as (LfO & CfO).
  unfold size, cell in *. simpl. repeat split; try congruence.
  intros i Hi.
  destruct (nth_error_in_range fK i) as [fk Hfk]; [lia | ].
  destruct (CfK i fk Hfk) as (d & ku & ou & Hd & Hku & Hou & ->).
  destruct (CfO i _ Hfk) as (fo & Hfo & E).
  exists d, ku, ou, fo. repeat split; assumption.
Qed.

End ResolutionControlLemmas.

(** *** The eddy-viscosity corrector *)

Lemma limiter_denominator_positive (a1 b1 ou f2 s2 : scalar) :
  0 < a1 -> 0 < ou \/ (0 < b1 /\ 0 < f2 /\ 0 < s2) ->
  0 < Rmax (a1 * ou) (b1 * f2 * sqrt s2).
Proof.
  intros Ha [Ho | (Hb & Hf & Hs)].
  - apply Rlt_le_trans with (a1 * ou); [ | apply Rmax_l].
    apply Rmult_lt_0_compat; assumption.
  - apply Rlt_le_trans with (b1 * f2 * sqrt s2); [ | apply Rmax_r].
    apply Rmult_lt_0_compat; [apply Rmult_lt_0_compat; assumption | ].
    apply sqrt_lt_R0. exact Hs.
Qed.


Lemma nutExpression_cells (m : kOmegaSSTPANS) (S2 F2 q : scalarField) :
  nutExpression m S2 F2 = Some q ->
  length q = size (kU_ m) /\ size (omegaU_ m) = size (kU_ m) /\
  length S2 = size (kU_ m) /\ length F2 = size (kU_ m) /\
  forall i, (i < size (kU_ m))%nat ->
    exists ku ou f2 s2,
      cell (kU_ m) i = Some ku /\ cell (omegaU_ m) i = Some ou /\
      nth_error F2 i = Some f2 /\ nth_error S2 i = Some s2 /\
      0 <= s2 /\ Rmax (a1_ m * ou) (b1_ m * f2 * sqrt s2) <> 0 /\
      nth_error q i = Some (nutCell (a1_ m) (b1_ m) ku ou f2 s2).
Proof.
  unfold nutExpression. intros H.
  obind_inv H s Hs.
  obind_inv H l Hl.
  apply obind_Some in H. destruct H as (d & Hd & Hq).
  pose proof (mapM_length _ _ _ Hs) as Ls.
  destruct (zipWithM_length _ _ _ _ Hl) as [Ll1 Ll2].
  destruct (zipWithM_length _ _ _ _ Hd) as [Ld1 Ld2].
  destruct (zipWithM_length _ _ _ _ Hq) as [Lq1 Lq2].
  unfold smul in *. rewrite length_map in *.
  unfold size, cell. repeat split; try congruence.
  intros i Hi.
  destruct (nth_error_in_range (primitiveField (kU_ m)) i Hi) as [ku Hku].
  destruct (nth_error_in_range (primitiveField (omegaU_ m)) i) as [ou Hou];
    [lia | ].
  destruct (nth_error_in_range F2 i) as [f2 Hf2]; [lia | ].
  destruct (nth_error_in_range S2 i) as [s2 Hs2]; [lia | ].
  destruct (mapM_nth _ _ _ _ _ Hs Hs2) as (r & Er & Hr).
  apply ssqrt_Some in Er. destruct Er as [Ps2 ->].
  destruct (zipWithM_nth _ _ _ _ _ _ _ Hl
              (map_nth_error (fun x => b1_ m * x) _ _ Hf2) Hr)
    as (lc & El & Hlc).
  injection El as <-.
  destruct (zipWithM_nth _ _ _ _ _ _ _ Hd
              (map_nth_error (fun x => a1_ m * x) _ _ Hou) Hlc)
    as (dc & Ed & Hdc).
  injection Ed as <-.
  destruct (zipWithM_nth _ _ _ _ _ _ _ Hq
              (map_nth_error (fun x => a1_ m * x) _ _ Hku) Hdc)
    as (qc & Eq & Hqc).
  apply sdiv_Some in Eq. destruct Eq as [Nd ->].
  exists ku, ou, f2, s2. repeat split; assumption.
Qed.

Lemma nutExpression_defined (m : kOmegaSSTPANS) (S2 F2 : scalarField) :
  size (omegaU_ m) = size (kU_ m) ->
  length S2 = size (kU_ m) -> length F2 = size (kU_ m) ->
  (forall i s2, nth_error S2 i = Some s2 -> 0 <= s2) ->
  (forall i ou f2 s2,
     cell (omegaU_ m) i = Some ou -> nth_error F2 i = Some f2 ->
     nth_error S2 i = Some s2 ->
     Rmax (a1_ m * ou) (b1_ m * f2 * sqrt s2) <> 0) ->
  exists q, nutExpression m S2 F2 = Some q.
Proof.
  unfold size, cell, nutExpression. intros Lo Ls Lf Ps Nd.
  destruct (mapM_total ssqrt S2) as [s Hs].
  { intros i s2 H E. unfold ssqrt in E.
    destruct (Rle_dec 0 s2) as [ | N]; [discriminate | ].
    exact (N (Ps i s2 H)). }
  pose proof (mapM_length _ _ _ Hs) as Lsq.
  destruct (zipWithM_total (fun a c : scalar => Some (a * c))
              (smul (b1_ m) F2) s) as [l Hl].
  { unfold smul. rewrite length_map. congruence. }
  { discriminate. }
  destruct (zipWithM_length _ _ _ _ Hl) as [_ Ll].
  unfold smul in Ll. rewrite length_map in Ll.
  destruct (zipWithM_total (fun a c : scalar => Some (Rmax a c))
              (smul (a1_ m) (primitiveField (omegaU_ m))) l) as [d Hd].
  { unfold smul. rewrite length_map. congruence. }
  { discriminate. }
  destruct (zipWithM_length _ _ _ _ Hd) as [_ Ld].
  unfold smul in Ld. rewrite length_map in Ld.
  destruct (zipWithM_total sdiv
              (smul (a1_ m) (primitiveField (kU_ m))) d) as [q Hq].
  { unfold smul. rewrite length_map. congruence. }
  { intros i x y Hx Hy E. apply sdiv_None in E. subst y.
    assert (Hi : (i < length d)%nat).
    { apply nth_error_Some. congruence. }
    destruct (nth_error_in_range (primitiveField (omegaU_ m)) i)
      as [ou Hou]; [lia | ].
    destruct (nth_error_in_range F2 i) as [f2 Hf2]; [lia | ].
    destruct (nth_error_in_range S2 i) as [s2 Hs2]; [lia | ].
    destruct (mapM_nth _ _ _ _ _ Hs Hs2) as (r & Er & Hr).
    apply ssqrt_Some in Er. destruct Er as [_ ->].
    destruct (zipWithM_nth _ _ _ _ _ _ _ Hl
                (map_nth_error (fun x => b1_ m * x) _ _ Hf2) Hr)
      as (lc & El & Hlc).
    injection El as <-.
    destruct (zipWithM_nth _ _ _ _ _ _ _ Hd
                (map_nth_error (fun x => a1_ m * x) _ _ Hou) Hlc)
      as (dc & Ed & Hdc).
    injection Ed as <-.
    rewrite Hy in Hdc. injection Hdc as E0.
    exact (Nd i ou f2 s2 Hou Hf2 Hs2 (eq_sym E0)). }
  exists q. unfold fsqrt, fmul, fmax, fdiv. rewrite Hs. simpl.
  rewrite Hl. simpl. rewrite Hd. simpl. exact Hq.
Qed.

Lemma correctNut_inv (b : closureBounds) (S2 F2 : volScalarField)
    (m m' : kOmegaSSTPANS) :
  correctNut b S2 F2 m = Some m' ->
  exists q,
    nutExpression m (primitiveField S2) (primitiveField F2) = Some q /\
    m' = set_nut m
           (withValues (nut_ m) (map (clip (nutMin b) (nutMax b)) q)).
Proof.
  unfold correctNut. intros H.
  obind_inv H q Hq.
  injection H as <-. exists q. split; [exact Hq | reflexivity].
Qed.

Lemma correctNut_cells (b : closureBounds) (S2 F2 : volScalarField)
    (m m' : kOmegaSSTPANS) :
  correctNut b S2 F2 m = Some m' ->
  size (nut_ m') = size (kU_ m) /\
  forall i, (i < size (kU_ m))%nat ->
    exists ku ou f2 s2,
      cell (kU_ m) i = Some ku /\ cell (omegaU_ m) i = Some ou /\
      cell F2 i = Some f2 /\ cell S2 i = Some s2 /\
      0 <= s2 /\ Rmax (a1_ m * ou) (b1_ m * f2 * sqrt s2) <> 0 /\
      cell (nut_ m') i =
        Some (clip (nutMin b) (nutMax b)
                (nutCell (a1_ m) (b1_ m) ku ou f2 s2)).
Proof.
  intros H. destruct (correctNut_inv _ _ _ _ _ H) as (q & Hq & ->).
  destruct (nutExpression_cells _ _ _ _ Hq) as (Lq & _ & _ & _ & Cells).
  unfold size at 1. simpl. rewrite length_map. split; [exact Lq | ].
  intros i Hi.
  destruct (Cells i Hi) as (ku & ou & f2 & s2 & Hku & Hou & Hf2 & Hs2 & Ps
                            & Nd & Hv).
  exists ku, ou, f2, s2. unfold cell at 3 4 5. simpl.
  repeat split; try assumption.
  apply map_nth_error. exact Hv.
Qed.

(** *** The correction driver *)

Section CorrectLemmas.

Variable b : closureBounds.
Variable fKestimate : scalar -> scalar -> scalar -> scalar -> scalar.
Variable solveKU : kOmegaSSTPANS -> scalarField.
Variable solveOmegaU : kOmegaSSTPANS -> scalarField.
Variable strainRateSqr : kOmegaSSTPANS -> volScalarField.
Variable F2_body : kOmegaSSTPANS -> option volScalarField.

Local Abbreviation solved' := (solved b solveKU solveOmegaU).

Lemma correct_inv (m m' : kOmegaSSTPANS) :
  correct b fKestimate solveKU solveOmegaU strainRateSqr F2_body m
  = Some m' ->
  exists F2 m3,
    F2_body m = Some F2 /\
    resolutionControl fKestimate (solved' m) = Some m3 /\
    correctNut b (strainRateSqr m) F2 m3 = Some m'.
Proof.
  unfold correct. intros H.
  obind_inv H F2 HF2.
  obind_inv H m3 Hm3.
  exists F2, m3. repeat split; assumption.
Qed.

(** The driver runs through when the fields share a mesh, the blending
    field and the strain rate are there, [fEpsilon] and [a1] are positive
    and omega is bounded by a positive floor. *)
Lemma correct_defined (m : kOmegaSSTPANS) (n : nat) (F2 : volScalarField) :
  sameMesh m n -> solversOnMesh solveKU solveOmegaU ->
  F2_body m = Some F2 -> size F2 = n -> size (strainRateSqr m) = n ->
  (forall i s2, cell (strainRateSqr m) i = Some s2 -> 0 <= s2) ->
  fEpsilon_ m <> 0 -> 0 < a1_ m -> 0 < omegaUMin b ->
  exists m',
    correct b fKestimate solveKU solveOmegaU strainRateSqr F2_body m
    = Some m'.
Proof.
  intros (Lk & Lo & Ln & Lnu & LfK & LfO & Ld & LkU & LoU) [Sk So]
    HF2 LF2 LS2 PS2 Ne Pa Pf.
  unfold correct. rewrite HF2. unfold obind at 1.
  assert (LkU' : size (kU_ (solved' m)) = n).
  { unfold solved, size. simpl. rewrite bound_length, Sk. exact LkU. }
  assert (LoU' : size (omegaU_ (solved' m)) = n).
  { unfold solved, size. simpl. rewrite bound_length, So. exact LoU. }
  destruct (resolutionControl_defined fKestimate (solved' m)) as [m3 Hm3].
  { rewrite LkU'. symmetry. exact Ld. }
  { rewrite LoU'. symmetry. exact Ld. }
  { exact Ne. }
  rewrite Hm3. unfold obind at 1.
  pose proof (resolutionControl_inv _ _ _ Hm3) as (fK & fO & _ & _ & E).
  assert (EkU : kU_ m3 = kU_ (solved' m)) by (rewrite E; reflexivity).
  assert (EoU : omegaU_ m3 = omegaU_ (solved' m)) by (rewrite E; reflexivity).
  assert (Ea : a1_ m3 = a1_ m) by (rewrite E; reflexivity).
  unfold correctNut.
  destruct (nutExpression_defined m3 (primitiveField (strainRateSqr m))
              (primitiveField F2)) as [q Hq].
  - rewrite EkU, EoU. congruence.
  - rewrite EkU. unfold size in *. congruence.
  - rewrite EkU. unfold size in *. congruence.
  - exact PS2.
  - intros i ou f2 s2 Hou _ _. rewrite Ea.
    apply Rgt_not_eq, Rlt_gt, limiter_denominator_positive; [exact Pa | ].
    left. rewrite EoU in Hou. unfold solved, cell in Hou. simpl in Hou.
    apply bound_nth in Hou. lra.
  - rewrite Hq. simpl. eexists. reflexivity.
Qed.

Lemma correct_frame (m m' : kOmegaSSTPANS) :
  correct b fKestimate solveKU solveOmegaU strainRateSqr F2_body m
  = Some m' ->
  fEpsilon_ m' = fEpsilon_ m /\ uLim_ m' = uLim_ m /\
  loLim_ m' = loLim_ m /\ a1_ m' = a1_ m /\ b1_ m' = b1_ m /\
  k_ m' = k_ m /\ omega_ m' = omega_ m /\
  nu m' = nu m /\ delta_ m' = delta_ m /\
  kU_ m' = kU_ (solved' m) /\ omegaU_ m' = omegaU_ (solved' m).
Proof.
  intros H. destruct (correct_inv _ _ H) as (F2 & m3 & _ & Hrc & Hnut).
  destruct (correctNut_inv _ _ _ _ _ Hnut) as (q & _ & ->).
  destruct (resolutionControl_inv _ _ _ Hrc) as (fK & fO & _ & _ & ->).
  repeat split.
Qed.

(** What the driver leaves in the cells of [fK_], [fOmega_] and [nut_]. *)
Lemma correct_cells (m m' : kOmegaSSTPANS) :
  correct b fKestimate solveKU solveOmegaU strainRateSqr F2_body m
  = Some m' ->
  size (fK_ m') = size (delta_ m) /\ size (fOmega_ m') = size (delta_ m) /\
  size (nut_ m') = size (delta_ m) /\
  size (kU_ m') = size (delta_ m) /\ size (omegaU_ m') = size (delta_ m) /\
  forall i, (i < size (delta_ m))%nat ->
    exists d ku ou fo,
      cell (delta_ m) i = Some d /\ cell (kU_ m') i = Some ku /\
      cell (omegaU_ m') i = Some ou /\
      cell (fK_ m') i = Some (fKcell fKestimate m d (ku, ou)) /\
      cell (fOmega_ m') i = Some fo /\
      sdiv (fKcell fKestimate m d (ku, ou)) (fEpsilon_ m) = Some fo.
Proof.
  intros H. destruct (correct_inv _ _ H) as (F2 & m3 & _ & Hrc & Hnut).
  destruct (correctNut_inv _ _ _ _ _ Hnut) as (q & Hq & ->).
  destruct (resolutionControl_cells _ _ _ Hrc) as (LfK & LfO & Cells).
  destruct (nutExpression_cells _ _ _ _ Hq) as (Lq & _).
  destruct (resolutionControl_inv _ _ _ Hrc) as (fK & fO & HfK & _ & E).
  destruct (evaluate_fK_cells _ _ _ HfK) as (_ & LkU & LoU & _).
  assert (EkU : kU_ m3 = kU_ (solved' m)) by (rewrite E; reflexivity).
  assert (EoU : omegaU_ m3 = omegaU_ (solved' m)) by (rewrite E; reflexivity).
  change (delta_ (solved' m)) with (delta_ m) in *.
  repeat split.
  - exact LfK.
  - exact LfO.
  - unfold size. simpl. rewrite length_map, Lq, EkU. exact LkU.
  - simpl. rewrite EkU. exact LkU.
  - simpl. rewrite EoU. exact LoU.
  - intros i Hi.
    destruct (Cells i Hi) as (d & ku & ou & fo & Hd & Hku & Hou & Hfk & Hfo
                              & Hdiv).
    exists d, ku, ou, fo. simpl. rewrite EkU, EoU.
    repeat split; assumption.
Qed.

Lemma correct_nut_cells (m m' : kOmegaSSTPANS) (F2 : volScalarField) :
  correct b fKestimate solveKU solveOmegaU strainRateSqr F2_body m
  = Some m' ->
  F2_body m = Some F2 ->
  forall i, (i < size (delta_ m))%nat ->
    exists ku ou f2 s2,
      cell (kU_ m') i = Some ku /\ cell (omegaU_ m') i = Some ou /\
      cell F2 i = Some f2 /\ cell (strainRateSqr m) i = Some s2 /\
      0 <= s2 /\ Rmax (a1_ m * ou) (b1_ m * f2 * sqrt s2) <> 0 /\
      cell (nut_ m') i =
        Some (clip (nutMin b) (nutMax b)
                (nutCell (a1_ m) (b1_ m) ku ou f2 s2)).
Proof.
  intros H HF2 i Hi.
  destruct (correct_cells _ _ H) as (_ & _ & _ & LkU & _).
  destruct (correct_frame _ _ H) as (_ & _ & _ & _ & _ & _ & _ & _ & _
                                     & EkU & EoU).
  destruct (correct_inv _ _ H) as (F2' & m3 & HF2' & Hrc & Hnut).
  rewrite HF2 in HF2'. injection HF2' as <-.
  destruct (resolutionControl_inv _ _ _ Hrc) as (fK & fO & _ & _ & E).
  assert (EkU3 : kU_ m3 = kU_ (solved' m)) by (rewrite E; reflexivity).
  assert (EoU3 : omegaU_ m3 = omegaU_ (solved' m)) by (rewrite E; reflexivity).
  assert (Ea : a1_ m3 = a1_ m) by (rewrite E; reflexivity).
  assert (Eb : b1_ m3 = b1_ m) by (rewrite E; reflexivity).
  destruct (correctNut_cells _ _ _ _ _ Hnut) as (_ & Cells).
  destruct (Cells i) as (ku & ou & f2 & s2 & Hku & Hou & Hf2 & Hs2 & Ps & Nd
                         & Hv).
  { rewrite EkU3, <- EkU, LkU. exact Hi. }
  exists ku, ou, f2, s2. rewrite EkU, EoU, <- EkU3, <- EoU3, <- Ea, <- Eb.
  repeat split; assumption.
Qed.

End CorrectLemmas.

(** *** An environment for the examples *)

Definition exampleBounds : closureBounds :=
  mkBounds 0 10 (1 / 1000) (1 / 1000).

Definition exampleEstimate (fEps d ku ou : scalar) : scalar := fEps * d * ou.

Definition exampleSolveKU (m : kOmegaSSTPANS) : scalarField :=
  primitiveField (kU_ m).

Definition exampleSolveOmegaU (m : kOmegaSSTPANS) : scalarField :=
  primitiveField (omegaU_ m).

Definition exampleS2 (m : kOmegaSSTPANS) : volScalarField :=
  oneCell "S2" 4.

Definition exampleF2 : volScalarField := oneCell "F2" (1 / 2).

Definition exampleF2_body (m : kOmegaSSTPANS) : option volScalarField :=
  Some exampleF2.

(** [exampleModel] on a mesh whose filter width is zero. *)
Definition flatModel : kOmegaSSTPANS :=
  mkModel (85 / 100) 1 (1 / 2) (856 / 1000) (9 / 100) (31 / 100) 1
    (oneCell "k" 1) (oneCell "omega" 4) (oneCell "nut" (1 / 4))
    (oneCell "nu" (1 / 100))
    1 1 (1 / 10)
    (oneCell "fK" (1 / 2)) (oneCell "fOmega" (1 / 2))
    (oneCell "delta" 0) (oneCell "kU" 1) (oneCell "omegaU" 2).

Lemma example_solversOnMesh : solversOnMesh exampleSolveKU exampleSolveOmegaU.
Proof. split; intros x; reflexivity. Qed.

Lemma example_correct_defined (m : kOmegaSSTPANS) :
  sameMesh m 1 -> fEpsilon_ m <> 0 -> 0 < a1_ m ->
  exists m',
    correct exampleBounds exampleEstimate exampleSolveKU exampleSolveOmegaU
      exampleS2 exampleF2_body m = Some m'.
Proof.
  intros M Ne Pa.
  apply (correct_defined exampleBounds exampleEstimate exampleSolveKU
           exampleSolveOmegaU exampleS2 exampleF2_body m 1 exampleF2).
  - exact M.
  - exact example_solversOnMesh.
  - reflexivity.
  - reflexivity.
  - reflexivity.
  - intros [ | i] s2 H; simpl in H.
    + injection H as <-. lra.
    + destruct i; discriminate.
  - exact Ne.
  - exact Pa.
  - simpl. lra.
Qed.


(** [exampleModel] with no unresolved dissipation left. *)
Definition stagnantModel : kOmegaSSTPANS :=
  mkModel (85 / 100) 1 (1 / 2) (856 / 1000) (9 / 100) (31 / 100) 1
    (oneCell "k" 1) (oneCell "omega" 4) (oneCell "nut" (1 / 4))
    (oneCell "nu" (1 / 100))
    1 1 (1 / 10)
    (oneCell "fK" (1 / 2)) (oneCell "fOmega" (1 / 2))
    (oneCell "delta" 1) (oneCell "kU" 1) (oneCell "omegaU" 0).


Lemma sqrt_4 : sqrt 4 = 2.
Proof. replace 4 with (2 * 2) by lra. apply sqrt_square. lra. Qed.

(** With no unresolved dissipation left the limiter alone is the
    denominator: [0.31 * 1 / max(0, 1 * 0.5 * 2)]. *)
Example correctNut_stagnant :
  option_map (fun m' => cell (nut_ m') 0)
    (correctNut exampleBounds (exampleS2 stagnantModel) exampleF2
       stagnantModel) = Some (Some (31 / 100)).
Proof.
  unfold correctNut, nutExpression, fsqrt, fmul, fmax, fdiv. simpl.
  rewrite ssqrt_nonneg by lra. simpl. rewrite sqrt_4.
  assert (E : Rmax (31 / 100 * 0) (1 * (1 / 2) * 2) = 1).
  { rewrite Rmax_right by lra. lra. }
  rewrite E. rewrite sdiv_nonzero by lra. simpl.
  unfold cell. simpl. do 2 f_equal.
  unfold clip. rewrite Rmax_left by lra. rewrite Rmin_left by lra. lra.
Qed.



Example fKcell_flat : fKcell exampleEstimate flatModel 0 (1, 2) = 1 / 10.
Proof. apply fKcell_degenerate. lra. Qed.

Example fKcell_fine :
  fKcell exampleEstimate exampleModel (1 / 4) (1, 2) = 1 / 2.
Proof.
  unfold fKcell. destruct (Rle_dec (1 / 4) 0) as [L | _]; [lra | ].
  unfold clip, exampleEstimate. simpl.
  rewrite Rmax_left by lra. rewrite Rmin_left by lra. lra.
Qed.

End Closure.

(** ** Doubles *)

Module Binary64.
Local Open Scope float_scope.

(** The bit patterns behind the constants of the proofs. *)
Lemma Prim2SF_one : Prim2SF 1 = S754_finite false 4503599627370496 (-52).
Proof. reflexivity. Qed.

Lemma fexp_eq (e : Z) : fexp prec emax e = Z.max (e - 53) (-1074).
Proof. reflexivity. Qed.

(** *** The classes of a double *)

Lemma is_zero_inv (x : float) :
  is_zero x = true -> exists s, Prim2SF x = S754_zero s.
Proof.
  unfold is_zero. rewrite FloatAxioms.eqb_spec.
  change (Prim2SF zero) with (S754_zero false).
  destruct (Prim2SF x) as [s | s | | s m e]; intros H.
  - exists s. reflexivity.
  - destruct s; vm_compute in H; discriminate.
  - vm_compute in H. discriminate.
  - destruct s; vm_compute in H; discriminate.
Qed.

Lemma is_zero_of_zero (x : float) (s : bool) :
  Prim2SF x = S754_zero s -> is_zero x = true.
Proof.
  intros H. unfold is_zero. rewrite FloatAxioms.eqb_spec, H. reflexivity.
Qed.

Lemma is_nan_of_nan (x : float) : Prim2SF x = S754_nan -> x = nan.
Proof. intros H. apply Prim2SF_inj. rewrite H. reflexivity. Qed.

Lemma is_nan_nan : is_nan nan = true.
Proof. reflexivity. Qed.

(** A finite double is a zero or has a mantissa and an exponent. *)
Lemma is_finite_inv (x : float) :
  is_finite x = true ->
  (exists s, Prim2SF x = S754_zero s) \/
  (exists s m e, Prim2SF x = S754_finite s m e).
Proof.
  unfold is_finite, is_nan, is_infinity.
  rewrite !FloatAxioms.eqb_spec, abs_spec.
  change (Prim2SF infinity) with (S754_infinity false).
  destruct (Prim2SF x) as [s | s | | s m e]; intros H.
  - left. exists s. reflexivity.
  - destruct s; vm_compute in H; discriminate.
  - vm_compute in H. discriminate.
  - right. exists s, m, e. reflexivity.
Qed.

Lemma finite_nonzero_inv (x : float) :
  is_finite x = true -> is_zero x = false ->
  exists s m e, Prim2SF x = S754_finite s m e.
Proof.
  intros F NZ. destruct (is_finite_inv x F) as [[s H] | H]; [ | exact H].
  rewrite (is_zero_of_zero x s H) in NZ. discriminate.
Qed.

Lemma is_infinity_inv (x : float) :
  is_infinity x = true -> exists s, Prim2SF x = S754_infinity s.
Proof.
  unfold is_infinity. rewrite FloatAxioms.eqb_spec, abs_spec.
  change (Prim2SF infinity) with (S754_infinity false).
  destruct (Prim2SF x) as [s | s | | s m e]; intros H.
  - vm_compute in H. discriminate.
  - exists s. reflexivity.
  - vm_compute in H. discriminate.
  - vm_compute in H. discriminate.
Qed.

(** *** NaN is contagious *)

Lemma mul_nan_l (x : float) : nan * x = nan.
Proof. apply Prim2SF_inj. rewrite mul_spec. reflexivity. Qed.

Lemma mul_nan_r (x : float) : x * nan = nan.
Proof.
  apply Prim2SF_inj. rewrite mul_spec.
  change (Prim2SF nan) with S754_nan. destruct (Prim2SF x); reflexivity.
Qed.

Lemma add_nan_l (x : float) : nan + x = nan.
Proof. apply Prim2SF_inj. rewrite add_spec. reflexivity. Qed.

Lemma add_nan_r (x : float) : x + nan = nan.
Proof.
  apply Prim2SF_inj. rewrite add_spec.
  change (Prim2SF nan) with S754_nan. destruct (Prim2SF x); reflexivity.
Qed.

Lemma div_nan_l (x : float) : nan / x = nan.
Proof. apply Prim2SF_inj. rewrite div_spec. reflexivity. Qed.

Lemma div_nan_r (x : float) : x / nan = nan.
Proof.
  apply Prim2SF_inj. rewrite div_spec.
  change (Prim2SF nan) with S754_nan. destruct (Prim2SF x); reflexivity.
Qed.

(** *** Zeros *)

(** Zero divided by zero, whatever the two signs. *)
Lemma div_zero_zero (x y : float) :
  is_zero x = true -> is_zero y = true -> x / y = nan.
Proof.
  intros Hx Hy. apply is_zero_inv in Hx, Hy.
  destruct Hx as [sx Hx]. destruct Hy as [sy Hy].
  apply Prim2SF_inj. rewrite div_spec, Hx, Hy. reflexivity.
Qed.

(** A zero divided by anything is a zero or NaN. *)
Lemma div_zero_l (x y : float) :
  is_zero x = true -> is_zero (x / y) = true \/ x / y = nan.
Proof.
  intros Hx. apply is_zero_inv in Hx. destruct Hx as [sx Hx].
  destruct (Prim2SF y) as [s | s | | s m e] eqn:Hy.
  - right. apply Prim2SF_inj. rewrite div_spec, Hx, Hy. reflexivity.
  - left. apply (is_zero_of_zero _ (xorb sx s)).
    rewrite div_spec, Hx, Hy. reflexivity.
  - right. apply Prim2SF_inj. rewrite div_spec, Hx, Hy. reflexivity.
  - left. apply (is_zero_of_zero _ (xorb sx s)).
    rewrite div_spec, Hx, Hy. reflexivity.
Qed.

(** The quotient [x / (x / e)] of a zero [x] is NaN for every [e]. *)
Lemma div_zero_by_own_quotient (x e : float) :
  is_zero x = true -> x / (x / e) = nan.
Proof.
  intros Hx. destruct (div_zero_l x e Hx) as [Z | N].
  - apply div_zero_zero; assumption.
  - rewrite N. apply div_nan_r.
Qed.

(** A finite double times a zero is a zero. *)
Lemma mul_finite_zero (x y : float) :
  is_finite x = true -> is_zero y = true -> is_zero (x * y) = true.
Proof.
  intros Fx Zy. apply is_zero_inv in Zy. destruct Zy as [sy Hy].
  destruct (is_finite_inv x Fx) as [[s Hx] | (s & m & e & Hx)];
    apply (is_zero_of_zero _ (xorb s sy)); rewrite mul_spec, Hx, Hy;
    reflexivity.
Qed.

Lemma mul_zero_finite (x y : float) :
  is_zero x = true -> is_finite y = true -> is_zero (x * y) = true.
Proof.
  intros Zx Fy. apply is_zero_inv in Zx. destruct Zx as [sx Hx].
  destruct (is_finite_inv y Fy) as [[s Hy] | (s & m & e & Hy)];
    apply (is_zero_of_zero _ (xorb sx s)); rewrite mul_spec, Hx, Hy;
    reflexivity.
Qed.

(** A zero times an infinity is NaN. *)
Lemma mul_zero_infinity (x y : float) :
  is_zero x = true -> is_infinity y = true -> x * y = nan.
Proof.
  intros Zx Iy. apply is_zero_inv in Zx. destruct Zx as [sx Hx].
  apply is_infinity_inv in Iy. destruct Iy as [sy Hy].
  apply Prim2SF_inj. rewrite mul_spec, Hx, Hy. reflexivity.
Qed.

Lemma mul_infinity_zero (x y : float) :
  is_infinity x = true -> is_zero y = true -> x * y = nan.
Proof.
  intros Ix Zy. apply is_infinity_inv in Ix. destruct Ix as [sx Hx].
  apply is_zero_inv in Zy. destruct Zy as [sy Hy].
  apply Prim2SF_inj. rewrite mul_spec, Hx, Hy. reflexivity.
Qed.

(** A zero added to a double that is not a zero leaves it as it is. *)
Lemma add_zero_l (x y : float) :
  is_zero x = true -> is_zero y = false -> x + y = y.
Proof.
  intros Zx NZy. apply is_zero_inv in Zx. destruct Zx as [sx Hx].
  apply Prim2SF_inj. rewrite add_spec, Hx.
  destruct (Prim2SF y) as [s | s | | s m e] eqn:Hy; try reflexivity.
  rewrite (is_zero_of_zero y s Hy) in NZy. discriminate.
Qed.

(** *** Exact quotients *)

Lemma div_eucl_exact (a b q : Z) :
  (b <> 0)%Z -> a = (q * b)%Z -> Z.div_eucl a b = (q, 0%Z).
Proof.
  intros Nb ->.
  pose proof (Z.div_mul q b Nb) as Hq. pose proof (Z.mod_mul q b Nb) as Hr.
  unfold Z.div in Hq. unfold Z.modulo in Hr.
  destruct (Z.div_eucl (q * b) b) as [q' r']. congruence.
Qed.

Lemma new_location_exact (n : Z) : new_location n 0 = loc_Exact.
Proof. unfold new_location. destruct (Z.even n); reflexivity. Qed.

Lemma shr_fexp_exact (m : positive) (e : Z) :
  fexp prec emax (Z.pos (digits2_pos m) + e) = e ->
  shr_fexp prec emax (Z.pos m) e loc_Exact
  = ({| shr_m := Z.pos m; shr_r := false; shr_s := false |}, e).
Proof.
  intros H. unfold shr_fexp.
  change (Zdigits2 (Z.pos m)) with (Z.pos (digits2_pos m)).
  rewrite H, Z.sub_diag. reflexivity.
Qed.

Lemma shr_fexp_even (m : positive) (e : Z) :
  fexp prec emax (Z.pos (digits2_pos m~0) + e) = (e + 1)%Z ->
  shr_fexp prec emax (Z.pos m~0) e loc_Exact
  = ({| shr_m := Z.pos m; shr_r := false; shr_s := false |}, (e + 1)%Z).
Proof.
  intros H. unfold shr_fexp.
  change (Zdigits2 (Z.pos m~0)) with (Z.pos (digits2_pos m~0)).
  rewrite H. replace (e + 1 - e)%Z with 1%Z by lia. reflexivity.
Qed.

(** Rounding a mantissa that already fits leaves it as it is. *)
Lemma binary_round_aux_exact (s : bool) (m : positive) (e : Z) :
  fexp prec emax (Z.pos (digits2_pos m) + e) = e -> (e <= 971)%Z ->
  binary_round_aux prec emax s (Z.pos m) e loc_Exact = S754_finite s m e.
Proof.
  intros H B. unfold binary_round_aux. rewrite (shr_fexp_exact m e H).
  cbn [shr_m loc_of_shr_record round_nearest_even].
  rewrite (shr_fexp_exact m e H). cbn [shr_m].
  change (emax - prec)%Z with 971%Z.
  destruct (Z.leb_spec e 971); [reflexivity | lia].
Qed.

Lemma binary_round_aux_even (s : bool) (m : positive) (e : Z) :
  fexp prec emax (Z.pos (digits2_pos m) + e) = e -> (e <= 971)%Z ->
  Z.pos (digits2_pos m) = 53%Z ->
  binary_round_aux prec emax s (Z.pos m~0) (e - 1) loc_Exact
  = S754_finite s m e.
Proof.
  intros H B D. unfold binary_round_aux.
  assert (H1 : fexp prec emax (Z.pos (digits2_pos m~0) + (e - 1))
               = (e - 1 + 1)%Z).
  { rewrite fexp_eq in *. cbn [digits2_pos]. lia. }
  rewrite (shr_fexp_even m (e - 1) H1).
  cbn [shr_m loc_of_shr_record round_nearest_even].
  replace (e - 1 + 1)%Z with e by lia.
  rewrite (shr_fexp_exact m e H). cbn [shr_m].
  change (emax - prec)%Z with 971%Z.
  destruct (Z.leb_spec e 971); [reflexivity | lia].
Qed.

Lemma valid_finite (s : bool) (m : positive) (e : Z) :
  valid_binary (S754_finite s m e) = true ->
  fexp prec emax (Z.pos (digits2_pos m) + e) = e /\ (e <= 971)%Z.
Proof.
  unfold SpecFloat.valid_binary, bounded, canonical_mantissa.
  intros V. apply andb_true_iff in V. destruct V as [C B].
  apply Z.eqb_eq in C. apply Z.leb_le in B.
  change (emax - prec)%Z with 971%Z in B. split; assumption.
Qed.

Lemma SFdiv_one_finite (s : bool) (m : positive) (e : Z) :
  valid_binary (S754_finite s m e) = true ->
  SF64div (S754_finite s m e) (S754_finite false 4503599627370496 (-52))
  = S754_finite s m e.
Proof.
  intros V. apply valid_finite in V. destruct V as [C B].
  pose proof C as C'. rewrite fexp_eq in C'.
  unfold SF64div, SFdiv. rewrite xorb_false_r.
  destruct (Z.eq_dec e (-1074)) as [E | Ne].
  - assert (K : SFdiv_core_binary prec emax (Z.pos m) e
                  4503599627370496 (-52) = (Z.pos m, e, loc_Exact)).
    { unfold SFdiv_core_binary. rewrite fexp_eq.
      change (Zdigits2 4503599627370496) with 53%Z.
      change (Zdigits2 (Z.pos m)) with (Z.pos (digits2_pos m)).
      replace (Z.min _ _) with e by lia.
      replace (e - -52 - e)%Z with 52%Z by lia. cbv iota beta.
      rewrite (div_eucl_exact _ 4503599627370496 (Z.pos m)).
      - rewrite new_location_exact. reflexivity.
      - discriminate.
      - rewrite Z.shiftl_mul_pow2 by lia. reflexivity. }
    rewrite K. apply binary_round_aux_exact; assumption.
  - assert (D : Z.pos (digits2_pos m) = 53%Z) by lia.
    assert (K : SFdiv_core_binary prec emax (Z.pos m) e
                  4503599627370496 (-52)
                = (Z.pos m~0, (e - 1)%Z, loc_Exact)).
    { unfold SFdiv_core_binary. rewrite fexp_eq.
      change (Zdigits2 4503599627370496) with 53%Z.
      change (Zdigits2 (Z.pos m)) with (Z.pos (digits2_pos m)).
      replace (Z.min _ _) with (e - 1)%Z by lia.
      replace (e - -52 - (e - 1))%Z with 53%Z by lia. cbv iota beta.
      rewrite (div_eucl_exact _ 4503599627370496 (Z.pos m~0)).
      - rewrite new_location_exact. reflexivity.
      - discriminate.
      - rewrite Z.shiftl_mul_pow2 by lia.
        change (2 ^ 53)%Z with 9007199254740992%Z. lia. }
    rewrite K. apply binary_round_aux_even; assumption.
Qed.

(** Division by one is exact. *)
Lemma div_one (x : float) : x / 1 = x.
Proof.
  apply Prim2SF_inj. rewrite div_spec, Prim2SF_one.
  pose proof (Prim2SF_valid x) as V.
  destruct (Prim2SF x) as [s | s | | s m e].
  - unfold SF64div, SFdiv. rewrite xorb_false_r. reflexivity.
  - unfold SF64div, SFdiv. rewrite xorb_false_r. reflexivity.
  - reflexivity.
  - apply SFdiv_one_finite. exact V.
Qed.

(** A finite double that is not a zero, divided by itself, is one. *)
Lemma div_self (x : float) :
  is_finite x = true -> is_zero x = false -> x / x = 1.
Proof.
  intros F NZ. destruct (finite_nonzero_inv x F NZ) as (s & m & e & E).
  apply Prim2SF_inj. rewrite div_spec, E, Prim2SF_one.
  unfold SF64div, SFdiv.
  assert (C : SFdiv_core_binary prec emax (Z.pos m) e (Z.pos m) e
              = (9007199254740992%Z, (-53)%Z, loc_Exact)).
  { unfold SFdiv_core_binary.
    replace (Zdigits2 (Z.pos m) + e - (Zdigits2 (Z.pos m) + e))%Z with 0%Z
      by lia.
    replace (e - e)%Z with 0%Z by lia.
    change (Z.min (fexp prec emax 0) 0) with (-53)%Z.
    change (0 - -53)%Z with 53%Z. cbv iota beta.
    rewrite (div_eucl_exact (Z.shiftl (Z.pos m) 53) (Z.pos m)
               9007199254740992).
    - rewrite new_location_exact. reflexivity.
    - discriminate.
    - rewrite Z.shiftl_mul_pow2 by lia.
      change (2 ^ 53)%Z with 9007199254740992%Z. lia. }
  rewrite C. rewrite xorb_nilpotent. reflexivity.
Qed.

(** Multiplication by one is exact. *)
Lemma SFmul_one_finite (s : bool) (m : positive) (e : Z) :
  valid_binary (S754_finite s m e) = true ->
  SF64mul (S754_finite false 4503599627370496 (-52)) (S754_finite s m e)
  = S754_finite s m e.
Proof.
  intros V. apply valid_finite in V. destruct V as [C B].
  unfold SF64mul, SFmul. rewrite xorb_false_l.
  change (Pos.mul 4503599627370496 m) with (Pos.iter xO m 52).
  unfold binary_round_aux.
  assert (S1 : shr_fexp prec emax (Z.pos (Pos.iter xO m 52)) (-52 + e)
                 loc_Exact
               = ({| shr_m := Z.pos m; shr_r := false; shr_s := false |}, e)).
  { unfold shr_fexp.
    assert (D : Zdigits2 (Z.pos (Pos.iter xO m 52))
                = (Z.pos (digits2_pos m) + 52)%Z).
    { cbn [Zdigits2]. cbv [Pos.iter]. cbn [digits2_pos]. lia. }
    rewrite D.
    replace (fexp prec emax (Z.pos (digits2_pos m) + 52 + (-52 + e))
             - (-52 + e))%Z with 52%Z.
    2:{ replace (Z.pos (digits2_pos m) + 52 + (-52 + e))%Z
          with (Z.pos (digits2_pos m) + e)%Z by lia.
        rewrite C. lia. }
    unfold shr. replace (-52 + e + 52)%Z with e by lia. reflexivity. }
  rewrite S1. cbn [shr_m loc_of_shr_record round_nearest_even].
  rewrite (shr_fexp_exact m e C). cbn [shr_m].
  change (emax - prec)%Z with 971%Z.
  destruct (Z.leb_spec e 971); [reflexivity | lia].
Qed.

Lemma mul_one_l (x : float) : 1 * x = x.
Proof.
  apply Prim2SF_inj. rewrite mul_spec, Prim2SF_one.
  pose proof (Prim2SF_valid x) as V.
  destruct (Prim2SF x) as [s | s | | s m e].
  - reflexivity.
  - reflexivity.
  - reflexivity.
  - apply SFmul_one_finite. exact V.
Qed.

End Binary64.

(** ** The inline member functions, in the arithmetic of the program *)

Module Header.
Local Open Scope string_scope.
Local Open Scope float_scope.

Definition word := string.

(** [Foam::scalar] of the double-precision build: an IEEE 754 binary64
    number.  Its operations round to nearest, overflow to an infinity and
    yield NaN where the quotient or product is not defined. *)
Abbreviation scalar := float (only parsing).

Definition scalarField := list scalar.

Record volScalarField := mkVolScalarField {
  name : word;
  primitiveField : scalarField;
  patchTypes : list word
}.

Definition cell (f : volScalarField) (i : nat) : option scalar :=
  nth_error (primitiveField f) i.

Definition size (f : volScalarField) : nat := length (primitiveField f).

(** Two fields combined cell by cell. *)
Definition zipWith (op : scalar -> scalar -> scalar) (a b : scalarField)
    : scalarField :=
  map (fun p => op (fst p) (snd p)) (combine a b).

(** A binary operator on two fields: the operands have to live on the same
    mesh, and the program stops with a fatal error when they do not. *)
Definition fieldOp (op : scalar -> scalar -> scalar) (a b : scalarField)
    : option scalarField :=
  if Nat.eqb (length a) (length b) then Some (zipWith op a b) else None.

Definition obind {A B : Type} (m : option A) (k : A -> option B) : option B :=
  match m with
  | Some a => k a
  | None => None
  end.

Notation "x <- m ;; k" := (obind m (fun x => k))
  (at level 61, m at next level, right associativity).

(** The members that the inline functions read.  [betaStar_], [k_],
    [omega_] and [nut_] belong to the base class and are read through
    [this->]; [nu] stands for the field that [this->nu()] returns; the
    others are the protected data that the header declares, [delta_]
    standing for the field of the delta model behind the [autoPtr]. *)
Record kOmegaSSTPANS := mkModel {
  betaStar_ : scalar;
  k_ : volScalarField;
  omega_ : volScalarField;
  nut_ : volScalarField;
  nu : volScalarField;
  fEpsilon_ : scalar;
  uLim_ : scalar;
  loLim_ : scalar;
  fK_ : volScalarField;
  fOmega_ : volScalarField;
  delta_ : volScalarField;
  kU_ : volScalarField;
  omegaU_ : volScalarField
}.

(** A field built from an expression has a calculated value on every
    patch of the mesh. *)
Definition calculatedTypes (f : volScalarField) : list word :=
  map (fun _ => "calculated") (patchTypes f).

(** [delta()]: access function to the filter width. *)
Definition delta (m : kOmegaSSTPANS) : volScalarField := delta_ m.

Section BaseClass.

(** [alphaK(F1)] and [alphaOmega(F1)] are member functions of the base
    class [kOmegaSST], whose file is not among the sources: the field that
    each returns for an object and a blending field is a parameter. *)
Variable alphaK : kOmegaSSTPANS -> volScalarField -> volScalarField.
Variable alphaOmega : kOmegaSSTPANS -> volScalarField -> volScalarField.

(** [DkUEff(F1)]: a new field named DkUEff that holds
    [(fK_/fOmega_)*this->alphaK(F1)*this->nut_ + this->nu()]; [*] and [/]
    associate to the left and every operator yields a field of its own. *)
Definition DkUEff (m : kOmegaSSTPANS) (F1 : volScalarField)
    : option volScalarField :=
  r <- fieldOp PrimFloat.div (primitiveField (fK_ m))
         (primitiveField (fOmega_ m)) ;;
  t <- fieldOp PrimFloat.mul r (primitiveField (alphaK m F1)) ;;
  u <- fieldOp PrimFloat.mul t (primitiveField (nut_ m)) ;;
  v <- fieldOp PrimFloat.add u (primitiveField (nu m)) ;;
  Some (mkVolScalarField "DkUEff" v (calculatedTypes (fK_ m))).

(** [DomegaUEff(F1)]: the same with [this->alphaOmega(F1)], in a new field
    named DomegaUEff. *)
Definition DomegaUEff (m : kOmegaSSTPANS) (F1 : volScalarField)
    : option volScalarField :=
  r <- fieldOp PrimFloat.div (primitiveField (fK_ m))
         (primitiveField (fOmega_ m)) ;;
  t <- fieldOp PrimFloat.mul r (primitiveField (alphaOmega m F1)) ;;
  u <- fieldOp PrimFloat.mul t (primitiveField (nut_ m)) ;;
  v <- fieldOp PrimFloat.add u (primitiveField (nu m)) ;;
  Some (mkVolScalarField "DomegaUEff" v (calculatedTypes (fK_ m))).

End BaseClass.

(** [k()] returns [this->k_]. *)
Definition k (m : kOmegaSSTPANS) : volScalarField := k_ m.

(** [epsilon()]: a new field named epsilon that holds
    [this->betaStar_*this->k_*this->omega_], the dimensioned scalar times
    the first field and the product times the second, and takes its patch
    types from [this->omega_]. *)
Definition epsilon (m : kOmegaSSTPANS) : option volScalarField :=
  v <- fieldOp PrimFloat.mul
         (map (fun x => betaStar_ m * x) (primitiveField (k_ m)))
         (primitiveField (omega_ m)) ;;
  Some (mkVolScalarField "epsilon" v (patchTypes (omega_ m))).

(** [omega()] returns [this->omega_]. *)
Definition omega (m : kOmegaSSTPANS) : volScalarField := omega_ m.

(** [kU()] returns [kU_]. *)
Definition kU (m : kOmegaSSTPANS) : volScalarField := kU_ m.

(** [omegaU()] returns [omegaU_]. *)
Definition omegaU (m : kOmegaSSTPANS) : volScalarField := omegaU_ m.

(** *** Objects for the examples *)

Definition twoCells (n : word) (v w : scalar) : volScalarField :=
  mkVolScalarField n [v; w] ["zeroGradient"; "fixedValue"].

(** A coefficient field that holds [c] in every cell of [F1]. *)
Definition uniformAlpha (c : scalar) (m : kOmegaSSTPANS)
    (F1 : volScalarField) : volScalarField :=
  mkVolScalarField "alpha" (map (fun _ => c) (primitiveField F1))
    (calculatedTypes F1).

Definition exampleF1 : volScalarField := twoCells "F1" 1 0.

(** Two cells on a mesh with two patches; [fEpsilon] is 1 and the two
    fractions agree, as [fOmega = fK / fEpsilon] has it. *)
Definition exampleObject : kOmegaSSTPANS :=
  mkModel 0.09375
    (twoCells "k" 1 2) (twoCells "omega" 4 0.5)
    (twoCells "nut" 0.25 0.5) (twoCells "nu" 0.015625 0.015625)
    1 1 0.125
    (twoCells "fK" 0.5 0.75) (twoCells "fOmega" (0.5 / 1) (0.75 / 1))
    (twoCells "delta" 1 1) (twoCells "kU" 0.5 1.5) (twoCells "omegaU" 4 0.5).

(** [fEpsilon] is 0.875; the second cell has lost all of its unresolved
    fraction.  Both cells of [fOmega_] hold [fK / fEpsilon]. *)
Definition roundedObject : kOmegaSSTPANS :=
  mkModel 0.09375
    (twoCells "k" 1 2) (twoCells "omega" 4 0.5)
    (twoCells "nut" 1 1) (twoCells "nu" 0 0.015625)
    0.875 1 0
    (twoCells "fK" 0.5625 0)
    (twoCells "fOmega" (0.5625 / 0.875) (0 / 0.875))
    (twoCells "delta" 1 0) (twoCells "kU" 0.5 0) (twoCells "omegaU" 4 0.5).

(** No eddy viscosity and no total k; in the second cell [fOmega_] is 0
    and omega has overflowed. *)
Definition stillObject : kOmegaSSTPANS :=
  mkModel 0.09375
    (twoCells "k" 0 0) (twoCells "omega" 4 infinity)
    (twoCells "nut" 0 0) (twoCells "nu" 0.015625 0.015625)
    1 1 0.125
    (twoCells "fK" 0.5 0.75) (twoCells "fOmega" 0.5 0)
    (twoCells "delta" 1 1) (twoCells "kU" 0 0) (twoCells "omegaU" 4 0.5).

(** *** Lemmas on the field operators *)

Lemma zipWith_length (op : scalar -> scalar -> scalar) (a b : scalarField) :
  length b = length a -> length (zipWith op a b) = length a.
Proof.
  intros L. unfold zipWith. rewrite length_map, length_combine, L.
  apply Nat.min_id.
Qed.

Lemma zipWith_nth (op : scalar -> scalar -> scalar) (a : scalarField) :
  forall (b : scalarField) (i : nat) (x y : scalar),
  nth_error a i = Some x -> nth_error b i = Some y ->
  nth_error (zipWith op a b) i = Some (op x y).
Proof.
  induction a as [ | x0 a IH]; intros [ | y0 b] [ | i] x y Hx Hy;
    simpl in *; try discriminate.
  - injection Hx as <-. injection Hy as <-. reflexivity.
  - exact (IH b i x y Hx Hy).
Qed.

Lemma fieldOp_same_mesh (op : scalar -> scalar -> scalar)
    (a b : scalarField) :
  length b = length a -> fieldOp op a b = Some (zipWith op a b).
Proof.
  intros L. unfold fieldOp. rewrite L, Nat.eqb_refl. reflexivity.
Qed.

Lemma fieldOp_other_mesh (op : scalar -> scalar -> scalar)
    (a b : scalarField) :
  length b <> length a -> fieldOp op a b = None.
Proof.
  intros L. unfold fieldOp.
  destruct (Nat.eqb_spec (length a) (length b)) as [E | _];
    [ | reflexivity].
  exfalso. apply L. symmetry. exact E.
Qed.

Lemma cell_in_range (f : volScalarField) (i : nat) :
  (i < size f)%nat -> exists x, cell f i = Some x.
Proof.
  unfold size, cell. intros H.
  destruct (nth_error (primitiveField f) i) as [x | ] eqn:E.
  - exists x. reflexivity.
  - apply nth_error_None in E. lia.
Qed.

(** What the four operators of the two effective diffusivities leave in
    the cells, on fields of one mesh. *)
Lemma diffusivity_cells (fK fO al nt v : scalarField) (n : nat) :
  length fK = n -> length fO = n -> length al = n -> length nt = n ->
  length v = n ->
  fieldOp PrimFloat.div fK fO = Some (zipWith PrimFloat.div fK fO) /\
  fieldOp PrimFloat.mul (zipWith PrimFloat.div fK fO) al
  = Some (zipWith PrimFloat.mul (zipWith PrimFloat.div fK fO) al) /\
  fieldOp PrimFloat.mul
    (zipWith PrimFloat.mul (zipWith PrimFloat.div fK fO) al) nt
  = Some (zipWith PrimFloat.mul
            (zipWith PrimFloat.mul (zipWith PrimFloat.div fK fO) al) nt) /\
  exists w,
    fieldOp PrimFloat.add
      (zipWith PrimFloat.mul
         (zipWith PrimFloat.mul (zipWith PrimFloat.div fK fO) al) nt) v
    = Some w /\
    length w = n /\
    forall i fk fo a t0 v0,
      nth_error fK i = Some fk -> nth_error fO i = Some fo ->
      nth_error al i = Some a -> nth_error nt i = Some t0 ->
      nth_error v i = Some v0 ->
      nth_error w i = Some (fk / fo * a * t0 + v0).
Proof.
  intros LK LO LA LN LV.
  assert (Lr : length (zipWith PrimFloat.div fK fO) = n).
  { rewrite zipWith_length; congruence. }
  assert (Lt : length (zipWith PrimFloat.mul
                         (zipWith PrimFloat.div fK fO) al) = n).
  { rewrite zipWith_length; congruence. }
  assert (Lu : length (zipWith PrimFloat.mul
                         (zipWith PrimFloat.mul
                            (zipWith PrimFloat.div fK fO) al) nt) = n).
  { rewrite zipWith_length; congruence. }
  split; [apply fieldOp_same_mesh; congruence | ].
  split; [apply fieldOp_same_mesh; congruence | ].
  split; [apply fieldOp_same_mesh; congruence | ].
  eexists. split; [apply fieldOp_same_mesh; congruence | ]. split.
  - rewrite zipWith_length; congruence.
  - intros i fk fo a t0 v0 Hk Ho Ha Hn Hv.
    apply zipWith_nth; [ | exact Hv].
    apply zipWith_nth; [ | exact Hn].
    apply zipWith_nth; [ | exact Ha].
    apply zipWith_nth; assumption.
Qed.

(** One cell of what the three computing functions return. *)
Lemma DkUEff_cell
    (alphaK : kOmegaSSTPANS -> volScalarField -> volScalarField)
    (m : kOmegaSSTPANS) (F1 : volScalarField) (n i : nat)
    (fk fo ak nt v : scalar) :
  size (fK_ m) = n -> size (fOmega_ m) = n -> size (alphaK m F1) = n ->
  size (nut_ m) = n -> size (nu m) = n ->
  cell (fK_ m) i = Some fk -> cell (fOmega_ m) i = Some fo ->
  cell (alphaK m F1) i = Some ak -> cell (nut_ m) i = Some nt ->
  cell (nu m) i = Some v ->
  option_map (fun f => cell f i) (DkUEff alphaK m F1)
  = Some (Some (fk / fo * ak * nt + v)).
Proof.
  unfold size, cell. intros LK LO LA LN LV Hfk Hfo Hak Hnt Hv.
  destruct (diffusivity_cells _ _ _ _ _ n LK LO LA LN LV)
    as (Er & Et & Eu & w & Ew & _ & Cw).
  unfold DkUEff. rewrite Er. cbn [obind]. rewrite Et. cbn [obind].
  rewrite Eu. cbn [obind]. rewrite Ew. simpl. f_equal.
  exact (Cw i fk fo ak nt v Hfk Hfo Hak Hnt Hv).
Qed.

Lemma DomegaUEff_cell
    (alphaOmega : kOmegaSSTPANS -> volScalarField -> volScalarField)
    (m : kOmegaSSTPANS) (F1 : volScalarField) (n i : nat)
    (fk fo aw nt v : scalar) :
  size (fK_ m) = n -> size (fOmega_ m) = n -> size (alphaOmega m F1) = n ->
  size (nut_ m) = n -> size (nu m) = n ->
  cell (fK_ m) i = Some fk -> cell (fOmega_ m) i = Some fo ->
  cell (alphaOmega m F1) i = Some aw -> cell (nut_ m) i = Some nt ->
  cell (nu m) i = Some v ->
  option_map (fun f => cell f i) (DomegaUEff alphaOmega m F1)
  = Some (Some (fk / fo * aw * nt + v)).
Proof.
  unfold size, cell. intros LK LO LA LN LV Hfk Hfo Hak Hnt Hv.
  destruct (diffusivity_cells _ _ _ _ _ n LK LO LA LN LV)
    as (Er & Et & Eu & w & Ew & _ & Cw).
  unfold DomegaUEff. rewrite Er. cbn [obind]. rewrite Et. cbn [obind].
  rewrite Eu. cbn [obind]. rewrite Ew. simpl. f_equal.
  exact (Cw i fk fo aw nt v Hfk Hfo Hak Hnt Hv).
Qed.

Lemma epsilon_cell (m : kOmegaSSTPANS) (n i : nat) (kc oc : scalar) :
  size (k_ m) = n -> size (omega_ m) = n ->
  cell (k_ m) i = Some kc -> cell (omega_ m) i = Some oc ->
  option_map (fun f => cell f i) (epsilon m)
  = Some (Some (betaStar_ m * kc * oc)).
Proof.
  unfold size, cell, epsilon. intros Lk Lo Hk Ho.
  rewrite fieldOp_same_mesh by (rewrite length_map; congruence).
  simpl. f_equal. apply zipWith_nth; [ | exact Ho].
  apply (map_nth_error (fun x => betaStar_ m * x)). exact Hk.
Qed.

End Header.

(** * Properties of the accessors *)

Module Accessors.
Import Scalar Field PANS.
Local Open Scope string_scope.

(** C3, as the code has it: [k()] hands out the stored field [k_] of the
    base class.  Whatever is assigned to [kU_] and [fK_], the field it
    returns stays the same, so a cell of it holds the quotient kU/fK exactly
    when the stored [k_] holds that quotient there. *)
Theorem k_returns_stored_field (m : kOmegaSSTPANS) :
  (forall f g : volScalarField, k (set_fK (set_kU m f) g) = k m) /\
  (forall i ku fk,
     cell (kU m) i = Some ku -> cell (fK_ m) i = Some fk ->
     (cell (k m) i = sdiv ku fk <-> cell (k_ m) i = sdiv ku fk)).
Proof.
  split.
  - intros f g. reflexivity.
  - intros i ku fk _ _. unfold k. split; intros H; exact H.
Qed.

(** C3 as stated fails: in the one cell of [exampleModel] the accessor
    [k()] returns 1, while kU is 1 and fK is 1/2, whose quotient is 2. *)
Lemma k_differs_from_kU_over_fK :
  cell (k exampleModel) 0 = Some 1 /\
  cell (kU exampleModel) 0 = Some 1 /\
  cell (fK_ exampleModel) 0 = Some (1 / 2) /\
  sdiv 1 (1 / 2) = Some 2 /\
  1 <> 2.
Proof.
  repeat split; try reflexivity.
  - apply sdiv_Some. split; lra.
  - lra.
Qed.

End Accessors.

(** * Properties of the inline member functions that compute *)

Module HeaderProperties.
Import Binary64 Header.
Local Open Scope string_scope.
Local Open Scope float_scope.

(** C4: on an object whose [k_] and [omega_] live on one mesh [epsilon()]
    returns a field; it is a new field named epsilon with the patch types
    of [omega_] and one cell per cell of the mesh; the cell holds the
    double [betaStar * k * omega] for the values that [k()] and [omega()]
    hold there; and the field is determined by [betaStar_], [k_] and
    [omega_] alone, so no stored dissipation field is read. *)
Theorem epsilon_is_betaStar_k_omega (m : kOmegaSSTPANS) (n : nat) :
  size (k m) = n -> size (omega m) = n ->
  exists e,
    epsilon m = Some e /\
    name e = "epsilon" /\
    patchTypes e = patchTypes (omega m) /\
    size e = n /\
    (forall i kc oc,
       cell (k m) i = Some kc -> cell (omega m) i = Some oc ->
       cell e i = Some (betaStar_ m * kc * oc)) /\
    (forall m',
       betaStar_ m' = betaStar_ m -> k_ m' = k_ m -> omega_ m' = omega_ m ->
       epsilon m' = Some e).
Proof.
  unfold k, omega, size. intros Lk Lo.
  assert (E : epsilon m
              = Some (mkVolScalarField "epsilon"
                        (zipWith PrimFloat.mul
                           (map (fun x => betaStar_ m * x)
                              (primitiveField (k_ m)))
                           (primitiveField (omega_ m)))
                        (patchTypes (omega_ m)))).
  { unfold epsilon. rewrite fieldOp_same_mesh; [reflexivity | ].
    rewrite length_map. congruence. }
  eexists. split; [exact E | ]. unfold size, cell. simpl.
  repeat split.
  - rewrite zipWith_length; rewrite length_map; congruence.
  - intros i kc oc Hk Ho. apply zipWith_nth; [ | exact Ho].
    apply map_nth_error. exact Hk.
  - intros m' Eb Ek Eo. unfold epsilon in *. rewrite Eb, Ek, Eo. exact E.
Qed.

(** The dissipation rate in the second cell of [exampleObject]:
    0.09375 * 2 * 0.5. *)
Lemma epsilon_is_betaStar_k_omega_witness :
  exists e,
    epsilon exampleObject = Some e /\ name e = "epsilon" /\
    cell e 1 = Some (0.09375 * 2 * 0.5) /\ cell e 1 = Some 0.09375.
Proof.
  destruct (epsilon_is_betaStar_k_omega exampleObject 2 eq_refl eq_refl)
    as (e & He & Hn & _ & _ & Hc & _).
  exists e. split; [exact He | ]. split; [exact Hn | ].
  split; exact (Hc 1%nat 2 0.5 eq_refl eq_refl).
Defined.

(** C10, as the code has it: on fields of one mesh [DkUEff] and
    [DomegaUEff] return new fields whose cells hold the doubles
    [(fK/fOmega) * alphaK(F1) * nut + nu] and
    [(fK/fOmega) * alphaOmega(F1) * nut + nu].  In a cell where
    [fOmega = fK / fEpsilon], the factor [fK/fOmega] is [fEpsilon] when
    [fEpsilon] is 1 and fK is finite and not zero; where fK is a zero the
    factor is NaN, and so are the two diffusivities of the cell. *)
Theorem DkUEff_DomegaUEff_pointwise
    (alphaK alphaOmega : kOmegaSSTPANS -> volScalarField -> volScalarField)
    (m : kOmegaSSTPANS) (F1 : volScalarField) (n : nat) :
  size (fK_ m) = n -> size (fOmega_ m) = n ->
  size (alphaK m F1) = n -> size (alphaOmega m F1) = n ->
  size (nut_ m) = n -> size (nu m) = n ->
  exists Dk Dw,
    DkUEff alphaK m F1 = Some Dk /\ DomegaUEff alphaOmega m F1 = Some Dw /\
    name Dk = "DkUEff" /\ name Dw = "DomegaUEff" /\
    size Dk = n /\ size Dw = n /\
    forall i, (i < n)%nat ->
      exists fk fo ak aw nt v,
        cell (fK_ m) i = Some fk /\ cell (fOmega_ m) i = Some fo /\
        cell (alphaK m F1) i = Some ak /\
        cell (alphaOmega m F1) i = Some aw /\
        cell (nut_ m) i = Some nt /\ cell (nu m) i = Some v /\
        cell Dk i = Some (fk / fo * ak * nt + v) /\
        cell Dw i = Some (fk / fo * aw * nt + v) /\
        (fo = fk / fEpsilon_ m ->
         (fEpsilon_ m = 1 -> is_finite fk = true -> is_zero fk = false ->
          fk / fo = fEpsilon_ m) /\
         (is_zero fk = true ->
          fk / fo = nan /\ cell Dk i = Some nan /\ cell Dw i = Some nan)).
Proof.
  unfold size. intros LK LO LA LW LN LV.
  destruct (diffusivity_cells (primitiveField (fK_ m))
              (primitiveField (fOmega_ m)) (primitiveField (alphaK m F1))
              (primitiveField (nut_ m)) (primitiveField (nu m)) n
              LK LO LA LN LV) as (Er & Et & Eu & wk & Ek & Lk & Ck).
  destruct (diffusivity_cells (primitiveField (fK_ m))
              (primitiveField (fOmega_ m))
              (primitiveField (alphaOmega m F1))
              (primitiveField (nut_ m)) (primitiveField (nu m)) n
              LK LO LW LN LV) as (_ & Et' & Eu' & ww & Ew & Lw & Cw).
  exists (mkVolScalarField "DkUEff" wk (calculatedTypes (fK_ m))),
         (mkVolScalarField "DomegaUEff" ww (calculatedTypes (fK_ m))).
  split; [ | split].
  - unfold DkUEff. rewrite Er. cbn [obind]. rewrite Et. cbn [obind].
    rewrite Eu. cbn [obind]. rewrite Ek. reflexivity.
  - unfold DomegaUEff. rewrite Er. cbn [obind]. rewrite Et'. cbn [obind].
    rewrite Eu'. cbn [obind]. rewrite Ew. reflexivity.
  - simpl. repeat split; try assumption. intros i Hi.
    destruct (cell_in_range (fK_ m) i) as [fk Hfk];
      [unfold size; lia | ].
    destruct (cell_in_range (fOmega_ m) i) as [fo Hfo];
      [unfold size; lia | ].
    destruct (cell_in_range (alphaK m F1) i) as [ak Hak];
      [unfold size; lia | ].
    destruct (cell_in_range (alphaOmega m F1) i) as [aw Haw];
      [unfold size; lia | ].
    destruct (cell_in_range (nut_ m) i) as [nt Hnt];
      [unfold size; lia | ].
    destruct (cell_in_range (nu m) i) as [v Hv]; [unfold size; lia | ].
    pose proof (Ck i fk fo ak nt v Hfk Hfo Hak Hnt Hv) as Hk.
    pose proof (Cw i fk fo aw nt v Hfk Hfo Haw Hnt Hv) as Hw.
    exists fk, fo, ak, aw, nt, v. unfold cell in *. simpl.
    do 8 (split; [assumption | ]).
    intros ->. split.
    + intros E1 F NZ. rewrite E1, div_one. apply div_self; assumption.
    + intros Z.
      pose proof (div_zero_by_own_quotient fk (fEpsilon_ m) Z) as N.
      split; [exact N | ]. split.
      * rewrite Hk, N, !mul_nan_l, add_nan_l. reflexivity.
      * rewrite Hw, N, !mul_nan_l, add_nan_l. reflexivity.
Qed.

(** The two diffusivities in the second cell of [exampleObject], where
    [fEpsilon] is 1, fK and fOmega are 0.75, the two coefficients are 0.5
    and 0.25, nut is 0.5 and nu is 0.015625. *)
Lemma DkUEff_DomegaUEff_pointwise_witness :
  exists Dk Dw,
    DkUEff (uniformAlpha 0.5) exampleObject exampleF1 = Some Dk /\
    DomegaUEff (uniformAlpha 0.25) exampleObject exampleF1 = Some Dw /\
    cell Dk 1 = Some (0.75 / 0.75 * 0.5 * 0.5 + 0.015625) /\
    cell Dw 1 = Some (0.75 / 0.75 * 0.25 * 0.5 + 0.015625) /\
    0.75 / 0.75 = fEpsilon_ exampleObject.
Proof.
  destruct (DkUEff_DomegaUEff_pointwise (uniformAlpha 0.5)
              (uniformAlpha 0.25) exampleObject exampleF1 2
              eq_refl eq_refl eq_refl eq_refl eq_refl eq_refl)
    as (Dk & Dw & Hk & Hw & _ & _ & _ & _ & Cells).
  exists Dk, Dw. split; [exact Hk | ]. split; [exact Hw | ].
  destruct (Cells 1%nat) as (fk & fo & ak & aw & nt & v & Hfk & Hfo & Hak
                             & Haw & Hnt & Hv & Ck & Cw & Inv);
    [lia | ].
  injection Hfk as <-. injection Hfo as <-. injection Hak as <-.
  injection Haw as <-. injection Hnt as <-. injection Hv as <-.
  split; [ | split].
  - rewrite Ck. reflexivity.
  - rewrite Cw. reflexivity.
  - destruct (Inv eq_refl) as [One _].
    rewrite <- (One eq_refl eq_refl eq_refl). reflexivity.
Defined.

(** C10 as stated fails: both cells of [roundedObject] satisfy
    [fOmega = fK / fEpsilon] with [fEpsilon] 0.875.  In the first, where
    fK is 0.5625, the factor [fK/fOmega] is not [fEpsilon] (it is
    0.87499999999999989), and with alphaK = nut = 1 and nu = 0 the
    diffusivity that [DkUEff] returns is that factor; in the second, where
    fK is 0, the factor and the diffusivity are NaN. *)
Lemma rescaling_factor_is_not_fEpsilon :
  fEpsilon_ roundedObject = 0.875 /\
  cell (fK_ roundedObject) 0 = Some 0.5625 /\
  cell (fOmega_ roundedObject) 0 = Some (0.5625 / fEpsilon_ roundedObject) /\
  (0.5625 / (0.5625 / fEpsilon_ roundedObject) =? fEpsilon_ roundedObject)
    = false /\
  cell (fK_ roundedObject) 1 = Some 0 /\
  cell (fOmega_ roundedObject) 1 = Some (0 / fEpsilon_ roundedObject) /\
  is_nan (0 / (0 / fEpsilon_ roundedObject)) = true /\
  exists Dk d,
    DkUEff (uniformAlpha 1) roundedObject exampleF1 = Some Dk /\
    cell Dk 0 = Some d /\
    (d =? fEpsilon_ roundedObject * 1 * 1 + 0) = false /\
    (d <? fEpsilon_ roundedObject) = true /\
    cell Dk 1 = Some nan.
Proof.
  repeat split.
  eexists. eexists. split; [vm_compute; reflexivity | ].
  repeat split.
Qed.

End HeaderProperties.

(** * Edge behaviour of the inline member functions *)

Module HeaderEdges.
Import Binary64 Header.
Local Open Scope string_scope.
Local Open Scope float_scope.

(** Where the eddy viscosity of a cell is a zero, the product
    [(fK/fOmega) * alpha] is finite and the molecular viscosity is not a
    zero, the two effective diffusivities return the molecular viscosity of
    that cell bit for bit: the turbulent part adds a zero.  A product that
    is not finite (fOmega a zero, or an overflow) gives NaN instead, for
    an infinity times a zero is NaN. *)
Theorem diffusivities_without_eddy_viscosity
    (alphaK alphaOmega : kOmegaSSTPANS -> volScalarField -> volScalarField)
    (m : kOmegaSSTPANS) (F1 : volScalarField) (n i : nat)
    (fk fo ak aw nt v : scalar) :
  size (fK_ m) = n -> size (fOmega_ m) = n ->
  size (alphaK m F1) = n -> size (alphaOmega m F1) = n ->
  size (nut_ m) = n -> size (nu m) = n ->
  cell (fK_ m) i = Some fk -> cell (fOmega_ m) i = Some fo ->
  cell (alphaK m F1) i = Some ak -> cell (alphaOmega m F1) i = Some aw ->
  cell (nut_ m) i = Some nt -> cell (nu m) i = Some v ->
  is_zero nt = true ->
  (is_finite (fk / fo * ak) = true -> is_zero v = false ->
   option_map (fun f => cell f i) (DkUEff alphaK m F1) = Some (Some v)) /\
  (is_finite (fk / fo * aw) = true -> is_zero v = false ->
   option_map (fun f => cell f i) (DomegaUEff alphaOmega m F1)
   = Some (Some v)) /\
  (is_infinity (fk / fo * ak) = true ->
   option_map (fun f => cell f i) (DkUEff alphaK m F1) = Some (Some nan)) /\
  (is_infinity (fk / fo * aw) = true ->
   option_map (fun f => cell f i) (DomegaUEff alphaOmega m F1)
   = Some (Some nan)).
Proof.
  intros LK LO LA LW LN LV Hfk Hfo Hak Haw Hnt Hv Z.
  rewrite (DkUEff_cell alphaK m F1 n i fk fo ak nt v) by assumption.
  rewrite (DomegaUEff_cell alphaOmega m F1 n i fk fo aw nt v) by assumption.
  split; [ | split; [ | split]].
  - intros F NZ. do 2 f_equal. apply add_zero_l; [ | exact NZ].
    apply mul_finite_zero; assumption.
  - intros F NZ. do 2 f_equal. apply add_zero_l; [ | exact NZ].
    apply mul_finite_zero; assumption.
  - intros I. do 2 f_equal. rewrite (mul_infinity_zero _ nt I Z).
    apply add_nan_l.
  - intros I. do 2 f_equal. rewrite (mul_infinity_zero _ nt I Z).
    apply add_nan_l.
Qed.

(** The first cell of [stillObject], where nut is 0 and nu is 0.015625. *)
Lemma diffusivities_without_eddy_viscosity_witness :
  option_map (fun f => cell f 0)
    (DkUEff (uniformAlpha 0.5) stillObject exampleF1)
  = Some (Some 0.015625) /\
  option_map (fun f => cell f 1)
    (DkUEff (uniformAlpha 0.5) stillObject exampleF1)
  = Some (Some nan).
Proof.
  split.
  - refine (proj1 (diffusivities_without_eddy_viscosity (uniformAlpha 0.5)
                     (uniformAlpha 0.25) stillObject exampleF1 2 0
                     0.5 0.5 0.5 0.25 0 0.015625
                     eq_refl eq_refl eq_refl eq_refl eq_refl eq_refl
                     eq_refl eq_refl eq_refl eq_refl eq_refl eq_refl
                     eq_refl) eq_refl eq_refl).
  - refine (proj1 (proj2 (proj2
             (diffusivities_without_eddy_viscosity (uniformAlpha 0.5)
                (uniformAlpha 0.25) stillObject exampleF1 2 1
                0.75 0 0.5 0.25 0 0.015625
                eq_refl eq_refl eq_refl eq_refl eq_refl eq_refl
                eq_refl eq_refl eq_refl eq_refl eq_refl eq_refl
                eq_refl))) eq_refl).
Defined.

(** In a cell where the total k is a zero and [betaStar] is finite,
    [epsilon()] returns a zero as long as omega is finite there, and NaN
    where omega is an infinity. *)
Theorem epsilon_where_k_is_zero (m : kOmegaSSTPANS) (n i : nat)
    (kc oc : scalar) :
  size (k_ m) = n -> size (omega_ m) = n ->
  cell (k_ m) i = Some kc -> cell (omega_ m) i = Some oc ->
  is_finite (betaStar_ m) = true -> is_zero kc = true ->
  exists e,
    option_map (fun f => cell f i) (epsilon m) = Some (Some e) /\
    (is_finite oc = true -> is_zero e = true) /\
    (is_infinity oc = true -> e = nan).
Proof.
  intros Lk Lo Hk Ho Fb Zk. exists (betaStar_ m * kc * oc).
  split; [apply (epsilon_cell m n); assumption | ].
  pose proof (mul_finite_zero (betaStar_ m) kc Fb Zk) as Zp.
  split.
  - intros Fo. apply mul_zero_finite; assumption.
  - intros Io. apply mul_zero_infinity; assumption.
Qed.

(** The two cells of [stillObject]: k is 0 in both, omega is 4 in the
    first and an infinity in the second. *)
Lemma epsilon_where_k_is_zero_witness :
  (exists e,
     option_map (fun f => cell f 0) (epsilon stillObject) = Some (Some e) /\
     is_zero e = true) /\
  option_map (fun f => cell f 1) (epsilon stillObject) = Some (Some nan).
Proof.
  split.
  - destruct (epsilon_where_k_is_zero stillObject 2 0 0 4
                eq_refl eq_refl eq_refl eq_refl eq_refl eq_refl)
      as (e & H & Z & _).
    exists e. split; [exact H | exact (Z eq_refl)].
  - destruct (epsilon_where_k_is_zero stillObject 2 1 0 infinity
                eq_refl eq_refl eq_refl eq_refl eq_refl eq_refl)
      as (e & H & _ & N).
    rewrite H, (N eq_refl). reflexivity.
Defined.

(** With [fEpsilon] at 1 the rescaling drops out of the two effective
    diffusivities: in a cell where [fOmega = fK / fEpsilon] and fK is
    finite and not zero they return [alphaK(F1) * nut + nu] and
    [alphaOmega(F1) * nut + nu], with no rounding left by the factor. *)
Theorem diffusivities_with_unit_fEpsilon
    (alphaK alphaOmega : kOmegaSSTPANS -> volScalarField -> volScalarField)
    (m : kOmegaSSTPANS) (F1 : volScalarField) (n i : nat)
    (fk fo ak aw nt v : scalar) :
  size (fK_ m) = n -> size (fOmega_ m) = n ->
  size (alphaK m F1) = n -> size (alphaOmega m F1) = n ->
  size (nut_ m) = n -> size (nu m) = n ->
  cell (fK_ m) i = Some fk -> cell (fOmega_ m) i = Some fo ->
  cell (alphaK m F1) i = Some ak -> cell (alphaOmega m F1) i = Some aw ->
  cell (nut_ m) i = Some nt -> cell (nu m) i = Some v ->
  fEpsilon_ m = 1 -> fo = fk / fEpsilon_ m ->
  is_finite fk = true -> is_zero fk = false ->
  option_map (fun f => cell f i) (DkUEff alphaK m F1)
  = Some (Some (ak * nt + v)) /\
  option_map (fun f => cell f i) (DomegaUEff alphaOmega m F1)
  = Some (Some (aw * nt + v)).
Proof.
  intros LK LO LA LW LN LV Hfk Hfo Hak Haw Hnt Hv E1 Inv F NZ.
  rewrite (DkUEff_cell alphaK m F1 n i fk fo ak nt v) by assumption.
  rewrite (DomegaUEff_cell alphaOmega m F1 n i fk fo aw nt v) by assumption.
  assert (One : fk / fo = 1).
  { rewrite Inv, E1, div_one. apply div_self; assumption. }
  rewrite One, !mul_one_l. split; reflexivity.
Qed.

(** The second cell of [exampleObject]: fK is 0.75, the coefficients are
    0.5 and 0.25, nut is 0.5 and nu is 0.015625. *)
Lemma diffusivities_with_unit_fEpsilon_witness :
  option_map (fun f => cell f 1)
    (DkUEff (uniformAlpha 0.5) exampleObject exampleF1)
  = Some (Some (0.5 * 0.5 + 0.015625)) /\
  option_map (fun f => cell f 1)
    (DomegaUEff (uniformAlpha 0.25) exampleObject exampleF1)
  = Some (Some (0.25 * 0.5 + 0.015625)).
Proof.
  exact (diffusivities_with_unit_fEpsilon (uniformAlpha 0.5)
           (uniformAlpha 0.25) exampleObject exampleF1 2 1
           0.75 0.75 0.5 0.25 0.5 0.015625
           eq_refl eq_refl eq_refl eq_refl eq_refl eq_refl
           eq_refl eq_refl eq_refl eq_refl eq_refl eq_refl
           eq_refl eq_refl eq_refl eq_refl).
Defined.

End HeaderEdges.

(** * Properties of the closure steps *)

Module ClosureProperties.
Import Scalar Field PANS Closure.
Local Open Scope string_scope.

(** C1: after a run of [correct()], whatever the filter width and the
    solved fields are, every cell of [fK_] lies between [loLim] and [uLim],
    the cell of [fOmega_] is that of [fK_] divided by [fEpsilon], and so it
    lies between [loLim/fEpsilon] and [uLim/fEpsilon]; the three constants
    are the ones from before the run. *)
Theorem correct_keeps_resolution_control_bounded
    (b : closureBounds) (fKestimate : R -> R -> R -> R -> R)
    (solveKU solveOmegaU : kOmegaSSTPANS -> scalarField)
    (strainRateSqr : kOmegaSSTPANS -> volScalarField)
    (F2_body : kOmegaSSTPANS -> option volScalarField)
    (m m' : kOmegaSSTPANS) :
  loLim_ m <= uLim_ m -> 0 < fEpsilon_ m ->
  correct b fKestimate solveKU solveOmegaU strainRateSqr F2_body m
  = Some m' ->
  (fEpsilon_ m' = fEpsilon_ m /\ uLim_ m' = uLim_ m /\
   loLim_ m' = loLim_ m) /\
  size (fK_ m') = size (delta_ m) /\ size (fOmega_ m') = size (delta_ m) /\
  forall i, (i < size (delta_ m))%nat ->
    exists fk fo,
      cell (fK_ m') i = Some fk /\ cell (fOmega_ m') i = Some fo /\
      loLim_ m <= fk <= uLim_ m /\
      sdiv fk (fEpsilon_ m) = Some fo /\
      loLim_ m / fEpsilon_ m <= fo <= uLim_ m / fEpsilon_ m.
Proof.
  intros L Pe H.
  destruct (correct_frame _ _ _ _ _ _ _ _ H) as (Ee & Eu & El & _).
  destruct (correct_cells _ _ _ _ _ _ _ _ H) as (LfK & LfO & _ & _ & _ & Cells).
  repeat split; try assumption.
  intros i Hi.
  destruct (Cells i Hi) as (d & ku & ou & fo & _ & _ & _ & Hfk & Hfo & Hdiv).
  pose proof (fKcell_bounds fKestimate m d (ku, ou) L) as [Blo Bhi].
  exists (fKcell fKestimate m d (ku, ou)), fo.
  repeat split; try assumption.
  - apply sdiv_Some in Hdiv. destruct Hdiv as [_ ->]. unfold Rdiv.
    apply Rmult_le_compat_r; [ | exact Blo].
    apply Rlt_le, Rinv_0_lt_compat. exact Pe.
  - apply sdiv_Some in Hdiv. destruct Hdiv as [_ ->]. unfold Rdiv.
    apply Rmult_le_compat_r; [ | exact Bhi].
    apply Rlt_le, Rinv_0_lt_compat. exact Pe.
Qed.

Lemma exampleModel_sameMesh : sameMesh exampleModel 1.
Proof. repeat split. Qed.

(** A run on [exampleModel], whose limits are 1/10 and 1. *)
Lemma correct_keeps_resolution_control_bounded_witness :
  exists m',
    correct exampleBounds exampleEstimate exampleSolveKU exampleSolveOmegaU
      exampleS2 exampleF2_body exampleModel = Some m' /\
    exists fk fo,
      cell (fK_ m') 0 = Some fk /\ cell (fOmega_ m') 0 = Some fo /\
      1 / 10 <= fk <= 1 /\
      sdiv fk 1 = Some fo /\
      1 / 10 / 1 <= fo <= 1 / 1.
Proof.
  destruct (example_correct_defined exampleModel exampleModel_sameMesh)
    as [m' H].
  - simpl. lra.
  - simpl. lra.
  - exists m'. split; [exact H | ].
    destruct (correct_keeps_resolution_control_bounded exampleBounds
                exampleEstimate exampleSolveKU exampleSolveOmegaU exampleS2
                exampleF2_body exampleModel m') as (_ & _ & _ & Cells).
    + simpl. lra.
    + simpl. lra.
    + exact H.
    + apply (Cells 0%nat). unfold size. simpl. lia.
Defined.









End ClosureProperties.
